(** * IKeybind: chorded key-combination detection

    A shallow embedding of [src/IKeybind.h] (class template
    [IKeybind<NKey_, NEvent_, KbMax_>]) and the properties of its
    registry ([assign], [clear]), its per-cycle resolver ([update],
    [searchKeybind]) and its query surface ([isEvent], [isAnyEvent]).

    Conventions of the embedding.
    - [size_type] is [uint8_t]; its values are natural numbers below 256.
      The three capacities are template arguments of that type.  The only
      place where the source stores the result of an addition back into a
      [size_type] is [aKeyBestEventIdx[..] = i + 1]; the truncation is
      written out there ([u8]).  Every other arithmetic expression is an
      index computed in [int] ([N - i - 1], [best - 1]) that the source
      evaluates only when it is non-negative.
    - A [std::array<T, n>] is a list; reading is [!!!] and writing is
      [<[ _ := _ ]>].  Indexing a [std::array] out of range is undefined
      in C++; in the model such a read yields the default inhabitant and
      such a write does nothing.  [wf] collects the extents of the arrays
      and the bounds on the stored sizes and indices; it is preserved by
      every operation.
    - [eState] values are bit masks, combined with [Z.land] and [Z.lor]. *)

From Stdlib Require Import ZArith Lia.
From stdpp Require Import base numbers list.

Local Open Scope nat_scope.

(** ** The key-state collaborator, [IPushButton]

    [IPushButton.h] is not part of the sources.  The resolver consumes a
    key through [id()], [state()], [pushTime()] and [update()] only, and
    names five enumerators of [IPushButton::eState].  The numeric values of
    the enumerators are therefore a parameter of the development. *)
Module IPushButton.

Record eStateValues : Type := {
  none : Z;
  idle : Z;
  push : Z;
  hold : Z;
  delay : Z;
  release : Z
}.

(** The observable part of one push button. *)
Record Key : Type := mkKey {
  id : nat;        (* caller-assigned identifier *)
  state : Z;       (* current eState *)
  pushTime : Z     (* time stamp of the press *)
}.

#[export] Instance Key_inhabited : Inhabited Key :=
  populate (mkKey 0 0%Z 0%Z).

End IPushButton.
Import IPushButton.

(** Modelled from the spec: the values of [IPushButton::eState], whose
    declaration is missing from the sources.  The spec calls it a
    "bitmask-composable enumeration" with the members none, idle, push,
    hold, delay, release; this instance gives [none] no bit and every other
    member a bit of its own.  It is used for concrete scenarios only; the
    general theorems quantify over [eStateValues]. *)
Definition bitflags : eStateValues :=
  {| none := 0; idle := 1; push := 2; hold := 4; delay := 8; release := 16 |}.

(** ** The object state *)

(** Truncation to [uint8_t]. *)
Definition u8 (n : nat) : nat := n mod 256.

Inductive exception : Type :=
| out_of_range
| invalid_argument.

Record IKeybind : Type := mkIKeybind {
  aKey : list Key;
  aKeybind : list (list nat);
  aKeybindSize : list nat;
  aPrimaryKeyState : list Z;
  aEventOccurred : list bool;
  aUsedAsModifier : list bool
}.

(** The result of a member function that may throw.  The object is
    mutated in place, so the state reached at the [throw] is part of the
    result. *)
Inductive outcome : Type :=
| Done (s : IKeybind)
| Throw (ex : exception) (s : IKeybind).

Definition state_of (o : outcome) : IKeybind :=
  match o with Done s => s | Throw _ s => s end.

Definition with_aKey (f : list Key → list Key) (s : IKeybind) : IKeybind :=
  mkIKeybind (f (aKey s)) (aKeybind s) (aKeybindSize s)
             (aPrimaryKeyState s) (aEventOccurred s) (aUsedAsModifier s).
Definition with_aKeybind (f : list (list nat) → list (list nat))
    (s : IKeybind) : IKeybind :=
  mkIKeybind (aKey s) (f (aKeybind s)) (aKeybindSize s)
             (aPrimaryKeyState s) (aEventOccurred s) (aUsedAsModifier s).
Definition with_aKeybindSize (f : list nat → list nat)
    (s : IKeybind) : IKeybind :=
  mkIKeybind (aKey s) (aKeybind s) (f (aKeybindSize s))
             (aPrimaryKeyState s) (aEventOccurred s) (aUsedAsModifier s).
Definition with_aPrimaryKeyState (f : list Z → list Z)
    (s : IKeybind) : IKeybind :=
  mkIKeybind (aKey s) (aKeybind s) (aKeybindSize s)
             (f (aPrimaryKeyState s)) (aEventOccurred s) (aUsedAsModifier s).
Definition with_aEventOccurred (f : list bool → list bool)
    (s : IKeybind) : IKeybind :=
  mkIKeybind (aKey s) (aKeybind s) (aKeybindSize s)
             (aPrimaryKeyState s) (f (aEventOccurred s)) (aUsedAsModifier s).
Definition with_aUsedAsModifier (f : list bool → list bool)
    (s : IKeybind) : IKeybind :=
  mkIKeybind (aKey s) (aKeybind s) (aKeybindSize s)
             (aPrimaryKeyState s) (aEventOccurred s) (f (aUsedAsModifier s)).

(** [std::array::fill]. *)
Definition fill {A} (v : A) (l : list A) : list A := replicate (length l) v.

(** [a & b], converted to [bool]. *)
Definition anyBit (a b : Z) : bool := negb (Z.land a b =? 0)%Z.

(** [aKeybind[event_idx_][j]] *)
Definition keyAt (s : IKeybind) (event_idx_ j : nat) : nat :=
  (aKeybind s !!! event_idx_) !!! j.

Section IKeybind.

(** Template arguments and the enumerators of [eState]. *)
Variable E : eStateValues.
Variables Key_Count Event_Count Keybind_Max : nat.

(** *** Private helpers *)

(** [state() & (push | hold | delay)] is non-zero. *)
Definition isPressed (k : Key) : bool :=
  anyBit (state k) (Z.lor (Z.lor (push E) (hold E)) (delay E)).

(** The loop of [isValidSequence] with [n] iterations left, at index [j];
    falling out of the loop returns the test on the primary key. *)
Fixpoint isValidSequence_from (s : IKeybind) (event_idx_ n j : nat) : bool :=
  match n with
  | 0 => negb (state (aKey s !!! keyAt s event_idx_ 0) =? none E)%Z
  | S n' =>
      if negb (isPressed (aKey s !!! keyAt s event_idx_ j)) then false
      else if (pushTime (aKey s !!! keyAt s event_idx_ j)
               >? pushTime (aKey s !!! keyAt s event_idx_ (j - 1)))%Z
      then false
      else isValidSequence_from s event_idx_ n' (S j)
  end.

(** [for (j = 1; j < aKeybindSize[event_idx_]; ++j)] runs
    [aKeybindSize[event_idx_] - 1] times. *)
Definition isValidSequence (s : IKeybind) (event_idx_ : nat) : bool :=
  isValidSequence_from s event_idx_ (aKeybindSize s !!! event_idx_ - 1) 1.

Definition isUsedAsModifier (s : IKeybind) (key_idx_ : nat) : bool :=
  aUsedAsModifier s !!! key_idx_.

Definition isEmptyKeybind (s : IKeybind) (event_idx_ : nat) : bool :=
  aKeybindSize s !!! event_idx_ =? 0.

Definition markModifiersAsUsed (s : IKeybind) (event_idx_ : nat) : IKeybind :=
  foldl (λ s j, with_aUsedAsModifier (<[keyAt s event_idx_ j := true]>) s)
        s (seq 1 (aKeybindSize s !!! event_idx_ - 1)).

(** The "prefer longest sequence" block of the first loop of
    [searchKeybind]: [true] when it executes [continue]. *)
Definition skipForLength (s : IKeybind) (aKeyBestEventIdx : list nat)
    (i : nat) : bool :=
  let best := aKeyBestEventIdx !!! keyAt s i 0 in
  if best =? 0 then false
  else if aKeybindSize s !!! i <? aKeybindSize s !!! (best - 1) then true
  else if aKeybindSize s !!! i =? aKeybindSize s !!! (best - 1) then
    negb (anyBit (aPrimaryKeyState s !!! i) (state (aKey s !!! keyAt s i 0)))
  else false.

(** Body of the first loop of [searchKeybind] for definition [i]. *)
Definition candidateStep (s : IKeybind) (aKeyBestEventIdx : list nat)
    (i : nat) : list nat :=
  if isEmptyKeybind s i then aKeyBestEventIdx
  else if skipForLength s aKeyBestEventIdx i then aKeyBestEventIdx
  else if isUsedAsModifier s (keyAt s i 0) then aKeyBestEventIdx
  else if negb (isValidSequence s i) then aKeyBestEventIdx
  else <[keyAt s i 0 := u8 (i + 1)]> aKeyBestEventIdx.

(** The scratch table after the first [n] definitions were examined. *)
Definition candidatesUpTo (s : IKeybind) (n : nat) : list nat :=
  foldl (candidateStep s) (replicate Key_Count 0) (seq 0 n).

Definition searchCandidates (s : IKeybind) : list nat :=
  candidatesUpTo s Event_Count.

(** Body of the second loop of [searchKeybind] for key index [i]. *)
Definition finalizeStep (aKeyBestEventIdx : list nat) (s : IKeybind)
    (i : nat) : IKeybind :=
  let best := aKeyBestEventIdx !!! i in
  if best =? 0 then s
  else if negb (anyBit (aPrimaryKeyState s !!! (best - 1))
                       (state (aKey s !!! i))) then s
  else with_aEventOccurred (<[best - 1 := true]>)
         (markModifiersAsUsed s (best - 1)).

Definition searchKeybind (s : IKeybind) : IKeybind :=
  foldl (finalizeStep (searchCandidates s)) s (seq 0 Key_Count).

(** *** Public interface *)

(** The constructor: the keys are copied, every other array is
    value-initialised. *)
Definition construct (keys_ : list Key) : IKeybind :=
  mkIKeybind keys_
             (replicate Event_Count (replicate Keybind_Max 0))
             (replicate Event_Count 0)
             (replicate Event_Count 0%Z)
             (replicate Event_Count false)
             (replicate Key_Count false).

(** The inner loop of [assign]: the first [j < Key_Count], starting at
    [j], with [aKey[j].id() == id]; [None] when the loop ends with
    [j == Key_Count]. *)
Fixpoint findKey_from (s : IKeybind) (kid n j : nat) : option nat :=
  match n with
  | 0 => None
  | S n' => if id (aKey s !!! j) =? kid then Some j
            else findKey_from s kid n' (S j)
  end.

Definition findKey (s : IKeybind) (kid : nat) : option nat :=
  findKey_from s kid Key_Count 0.

(** The outer loop of [assign] with [n] iterations left, at index [i];
    [N] is the template argument, the length of [key_id_]. *)
Fixpoint assign_from (event_idx_ : nat) (key_id_ : list nat)
    (n i : nat) (s : IKeybind) : outcome :=
  match n with
  | 0 => Done s
  | S n' =>
      match findKey s (key_id_ !!! i) with
      | Some j =>
          assign_from event_idx_ key_id_ n' (S i)
            (with_aKeybind
               (alter (<[length key_id_ - i - 1 := j]>) event_idx_) s)
      | None => Throw invalid_argument s
      end
  end.

Definition assign (event_idx_ : nat) (key_id_ : list nat) (key_state_ : Z)
    (s : IKeybind) : outcome :=
  if Event_Count <=? event_idx_ then Throw out_of_range s
  else if Keybind_Max <? length key_id_ then Throw out_of_range s
  else
    match assign_from event_idx_ key_id_ (length key_id_) 0 s with
    | Done s' =>
        Done (with_aKeybindSize (<[event_idx_ := length key_id_]>)
                (with_aPrimaryKeyState (<[event_idx_ := key_state_]>) s'))
    | Throw ex s' => Throw ex s'
    end.

(** [aKey[i].state() == none or aKey[i].state() & idle] *)
Definition isNeutral (k : Key) : bool :=
  (state k =? none E)%Z || anyBit (state k) (idle E).

(** Body of the loop of [update] for key index [i].  [refresh i] is what
    [aKey[i].update()] does to the observable part of key [i] in this
    polling cycle; it is decided by the collaborator and its inputs. *)
Definition refreshStep (refresh : nat → Key → Key) (s : IKeybind)
    (i : nat) : IKeybind :=
  let s' := with_aKey (alter (refresh i) i) s in
  if isNeutral (aKey s' !!! i)
  then with_aUsedAsModifier (<[i := false]>) s'
  else s'.

(** [update] up to the call of [searchKeybind]. *)
Definition beginCycle (refresh : nat → Key → Key) (s : IKeybind) : IKeybind :=
  foldl (refreshStep refresh) (with_aEventOccurred (fill false) s)
        (seq 0 Key_Count).

Definition update (refresh : nat → Key → Key) (s : IKeybind) : IKeybind :=
  searchKeybind (beginCycle refresh s).

Definition isEvent (s : IKeybind) (event_idx_ : nat) : bool :=
  if Event_Count <=? event_idx_ then false
  else aEventOccurred s !!! event_idx_.

(** The range-for of [isAnyEvent] with its early [return true]. *)
Fixpoint anyTrue (l : list bool) : bool :=
  match l with
  | [] => false
  | it :: l' => if it then true else anyTrue l'
  end.

Definition isAnyEvent (s : IKeybind) : bool := anyTrue (aEventOccurred s).

Definition clear (s : IKeybind) : IKeybind :=
  mkIKeybind (aKey s)
             (fill (replicate Keybind_Max 0) (aKeybind s))
             (fill 0 (aKeybindSize s))
             (fill 0%Z (aPrimaryKeyState s))
             (fill false (aEventOccurred s))
             (fill false (aUsedAsModifier s)).

Definition getKey (s : IKeybind) (key_idx_ : nat) : exception + Key :=
  if Key_Count <=? key_idx_ then inl out_of_range
  else inr (aKey s !!! key_idx_).

(** *** Representation invariant

    The array extents are those of the template arguments, every
    recorded size fits a row, and every index stored below the recorded
    size of a slot names a managed key.  Under [wf] the source never
    indexes an array out of range. *)
Record wf (s : IKeybind) : Prop := mk_wf {
  wf_aKey : length (aKey s) = Key_Count;
  wf_aKeybind : length (aKeybind s) = Event_Count;
  wf_row : ∀ e, e < Event_Count → length (aKeybind s !!! e) = Keybind_Max;
  wf_aKeybindSize : length (aKeybindSize s) = Event_Count;
  wf_aPrimaryKeyState : length (aPrimaryKeyState s) = Event_Count;
  wf_aEventOccurred : length (aEventOccurred s) = Event_Count;
  wf_aUsedAsModifier : length (aUsedAsModifier s) = Key_Count;
  wf_size : ∀ e, e < Event_Count → aKeybindSize s !!! e ≤ Keybind_Max;
  wf_index : ∀ e j, e < Event_Count → j < aKeybindSize s !!! e →
                    keyAt s e j < Key_Count
}.

End IKeybind.

(** ** The concrete scenario of the specification (section 8) *)
Module Scenario.

(** Three keys with ids 10, 20 and 30; two event slots; chords of at
    most two keys. *)
Definition keys0 : list Key :=
  [mkKey 10 (idle bitflags) 0; mkKey 20 (idle bitflags) 0;
   mkKey 30 (idle bitflags) 0].

(** Key 10 was pressed at tick 5 and is held, key 20 was pressed at
    tick 6 and is in state push, key 30 is idle. *)
Definition press (i : nat) (k : Key) : Key :=
  match i with
  | 0 => mkKey (id k) (hold bitflags) 5
  | 1 => mkKey (id k) (push bitflags) 6
  | _ => k
  end.

Definition registered : IKeybind :=
  state_of (assign 3 2 2 1 [20] (push bitflags)
    (state_of (assign 3 2 2 0 [10; 20] (push bitflags)
       (construct 3 2 2 keys0)))).

Definition after : IKeybind := update bitflags 3 2 press registered.

End Scenario.


(** ** Vocabulary of the statements *)

(** [s'] has the keys, the definitions and the required states of [s]:
    what the resolver reads and never writes. *)
Definition sameInputs (s s' : IKeybind) : Prop :=
  aKey s' = aKey s ∧ aKeybind s' = aKeybind s ∧
  aKeybindSize s' = aKeybindSize s ∧
  aPrimaryKeyState s' = aPrimaryKeyState s.

(** The second loop of [searchKeybind], at key index [i], marks slot [e]
    as fired: [e] is the candidate recorded for [i] and the state of the
    key meets the required primary state of [e]. *)
Definition firesFor (s : IKeybind) (aKeyBestEventIdx : list nat)
    (i e : nat) : Prop :=
  aKeyBestEventIdx !!! i ≠ 0 ∧ aKeyBestEventIdx !!! i - 1 = e ∧
  anyBit (aPrimaryKeyState s !!! e) (state (aKey s !!! i)) = true.

(** Key index [X] is a modifier of definition [e]: it is stored at a
    position from 1 up to the size of [e]. *)
Definition isModifierOf (s : IKeybind) (e X : nat) : Prop :=
  ∃ j, 1 ≤ j < aKeybindSize s !!! e ∧ keyAt s e j = X.

(** Key index [X] is the primary key of the assigned definition [e]. *)
Definition isPrimaryOf (s : IKeybind) (e X : nat) : Prop :=
  aKeybindSize s !!! e ≠ 0 ∧ keyAt s e 0 = X.

(** Consecutive polling cycles; each cycle comes with what the
    collaborator does to the keys in it. *)
Fixpoint runCycles (E : eStateValues) (Key_Count Event_Count : nat)
    (cycles : list (nat → Key → Key)) (s : IKeybind) : IKeybind :=
  match cycles with
  | [] => s
  | refresh :: cycles' =>
      runCycles E Key_Count Event_Count cycles'
        (update E Key_Count Event_Count refresh s)
  end.

(** In every one of the cycles, key [X] reports a state that is neither
    [none] nor one with the idle bit. *)
Fixpoint staysHeld (E : eStateValues) (Key_Count Event_Count : nat) (X : nat)
    (cycles : list (nat → Key → Key)) (s : IKeybind) : Prop :=
  match cycles with
  | [] => True
  | refresh :: cycles' =>
      isNeutral E (aKey (update E Key_Count Event_Count refresh s) !!! X)
      = false ∧
      staysHeld E Key_Count Event_Count X cycles'
        (update E Key_Count Event_Count refresh s)
  end.

(** ** Two readings of the specification, as it words them

    These predicates transcribe two sentences of the specification
    literally; they are compared with the code below. *)

(** "A key consumed as a modifier in one firing event must not
    simultaneously serve as the primary key (or modifier) of another event
    in the same or an immediately following cycle while still held":
    over a cycle [r1] followed by a cycle [r2], if [e] fires in the first
    cycle with [X] among its modifiers and [X] is not neutral in the
    second, then no other definition that has [X] as primary key or as
    modifier fires in either cycle. *)
Definition exclusivity_as_stated (E : eStateValues)
    (Key_Count Event_Count : nat) (s : IKeybind)
    (r1 r2 : nat → Key → Key) : Prop :=
  let s1 := update E Key_Count Event_Count r1 s in
  let s2 := update E Key_Count Event_Count r2 s1 in
  ∀ X e e',
    isEvent Event_Count s1 e = true → isModifierOf s e X →
    isNeutral E (aKey s2 !!! X) = false →
    e' ≠ e → isPrimaryOf s e' X ∨ isModifierOf s e' X →
    isEvent Event_Count s1 e' = false ∧ isEvent Event_Count s2 e' = false.

(** Every key of chord [e] is pressed. *)
Definition chordPressed (E : eStateValues) (s : IKeybind) (e : nat) : Prop :=
  ∀ j, j < aKeybindSize s !!! e → isPressed E (aKey s !!! keyAt s e j) = true.

(** "For every pair of assigned definitions sharing the same primary key
    but of different chord lengths, when all keys of both chords are
    currently active, correctly ordered, and the primary key satisfies
    both required states, exactly the longer definition's event fires
    after update() and the shorter one's does not." *)
Definition longest_match_as_stated (E : eStateValues)
    (Key_Count Event_Count : nat) (s : IKeybind)
    (refresh : nat → Key → Key) : Prop :=
  let b := beginCycle E Key_Count refresh s in
  ∀ i k p,
    i < Event_Count → k < Event_Count →
    isPrimaryOf s i p → isPrimaryOf s k p →
    aKeybindSize s !!! i < aKeybindSize s !!! k →
    chordPressed E b i → chordPressed E b k →
    isValidSequence E b i = true → isValidSequence E b k = true →
    anyBit (aPrimaryKeyState s !!! i) (state (aKey b !!! p)) = true →
    anyBit (aPrimaryKeyState s !!! k) (state (aKey b !!! p)) = true →
    isEvent Event_Count (update E Key_Count Event_Count refresh s) k = true ∧
    isEvent Event_Count (update E Key_Count Event_Count refresh s) i = false.

(** ** Further scenarios *)

(** A modifier shared by two chords.  Keys 10, 20, 30; slot 0 is the
    chord [10, 20], slot 1 the chord [10, 30], both asking for push. *)
Module SharedModifier.

Definition registered : IKeybind :=
  state_of (assign 3 2 2 1 [10; 30] (push bitflags)
    (state_of (assign 3 2 2 0 [10; 20] (push bitflags)
       (construct 3 2 2 Scenario.keys0)))).

(** First cycle: key 10 held since tick 5, key 20 pushed at tick 6. *)
Definition cycle1 (i : nat) (k : Key) : Key :=
  match i with
  | 0 => mkKey (id k) (hold bitflags) 5
  | 1 => mkKey (id k) (push bitflags) 6
  | _ => k
  end.

(** Second cycle: keys 10 and 20 still held, key 30 pushed at tick 9. *)
Definition cycle2 (i : nat) (k : Key) : Key :=
  match i with
  | 0 => mkKey (id k) (hold bitflags) 5
  | 1 => mkKey (id k) (hold bitflags) 6
  | _ => mkKey (id k) (push bitflags) 9
  end.

End SharedModifier.

(** A third, longer chord on the same primary key.  Slot 0 is [10, 20],
    slot 1 is [20], slot 2 is [30, 10, 20]; all ask for push. *)
Module ThreeChords.

Definition registered : IKeybind :=
  state_of (assign 3 3 3 2 [30; 10; 20] (push bitflags)
    (state_of (assign 3 3 3 1 [20] (push bitflags)
      (state_of (assign 3 3 3 0 [10; 20] (push bitflags)
         (construct 3 3 3 Scenario.keys0)))))).

(** Key 30 held since tick 4, key 10 since tick 5, key 20 pushed at
    tick 6. *)
Definition press (i : nat) (k : Key) : Key :=
  match i with
  | 0 => mkKey (id k) (hold bitflags) 5
  | 1 => mkKey (id k) (push bitflags) 6
  | _ => mkKey (id k) (hold bitflags) 4
  end.

End ThreeChords.

(** A primary key that is still marked.  Slot 0 is [10, 20] and slot 1 is
    [20], both asking for hold; slot 2 is [20, 30], asking for push. *)
Module MarkedPrimary.

Definition registered : IKeybind :=
  state_of (assign 3 3 2 2 [20; 30] (push bitflags)
    (state_of (assign 3 3 2 1 [20] (hold bitflags)
      (state_of (assign 3 3 2 0 [10; 20] (hold bitflags)
         (construct 3 3 2 Scenario.keys0)))))).

(** First cycle: key 10 held since tick 5, key 20 since tick 6, key 30
    pushed at tick 7. *)
Definition cycle1 (i : nat) (k : Key) : Key :=
  match i with
  | 0 => mkKey (id k) (hold bitflags) 5
  | 1 => mkKey (id k) (hold bitflags) 6
  | _ => mkKey (id k) (push bitflags) 7
  end.

(** Second cycle: all three keys held. *)
Definition cycle2 (i : nat) (k : Key) : Key :=
  match i with
  | 0 => mkKey (id k) (hold bitflags) 5
  | 1 => mkKey (id k) (hold bitflags) 6
  | _ => mkKey (id k) (hold bitflags) 7
  end.

Definition afterCycle1 : IKeybind := update bitflags 3 3 cycle1 registered.

End MarkedPrimary.

(** Two chords of equal length on one primary key.  Slot 0 is [20]
    asking for push, slot 1 is [20] asking for hold. *)
Module EqualLength.

Definition registered : IKeybind :=
  state_of (assign 3 2 2 1 [20] (hold bitflags)
    (state_of (assign 3 2 2 0 [20] (push bitflags)
       (construct 3 2 2 Scenario.keys0)))).

(** Key 20 held since tick 6. *)
Definition press (i : nat) (k : Key) : Key :=
  match i with
  | 1 => mkKey (id k) (hold bitflags) 6
  | _ => k
  end.

Definition refreshed : IKeybind := beginCycle bitflags 3 press registered.

End EqualLength.

(** The chord [10, 20] of the first scenario with the keys pressed in the
    opposite order: key 20 at tick 5, key 10 at tick 6, both active. *)
Module ReverseOrder.

Definition press (i : nat) (k : Key) : Key :=
  match i with
  | 0 => mkKey (id k) (push bitflags) 6
  | 1 => mkKey (id k) (push bitflags) 5
  | _ => k
  end.

End ReverseOrder.

(** A key that is the modifier of one chord and the primary key of
    another.  Slot 0 is [10, 20] asking for push, slot 1 is [10] asking
    for hold; the keys are pressed as in the first scenario. *)
Module ModifierAsPrimary.

Definition registered : IKeybind :=
  state_of (assign 3 2 2 1 [10] (hold bitflags)
    (state_of (assign 3 2 2 0 [10; 20] (push bitflags)
       (construct 3 2 2 Scenario.keys0)))).

End ModifierAsPrimary.

(** ** The rest of the public surface *)

(** The loop of [forEachKey]: [fn_] is called on the keys in storage
    order and may change each of them.  Whatever [fn_] carries from one
    call to the next (what a lambda captures by reference) is the value
    [a], handed on and returned. *)
Fixpoint forEachKey_loop {A : Type} (fn_ : A → Key → A * Key) (a : A)
    (keys : list Key) : A * list Key :=
  match keys with
  | [] => (a, [])
  | it :: keys' =>
      let '(a1, it') := fn_ a it in
      let '(a2, keys'') := forEachKey_loop fn_ a1 keys' in
      (a2, it' :: keys'')
  end.

Definition forEachKey {A : Type} (fn_ : A → Key → A * Key) (a : A)
    (s : IKeybind) : A * IKeybind :=
  let '(a', keys') := forEachKey_loop fn_ a (aKey s) in
  (a', with_aKey (λ _, keys') s).

(** [getKey] returns a reference.  [getKey_apply] is the object after the
    caller has applied [f] to the key it was handed, or the exception. *)
Definition getKey_apply (Key_Count : nat) (f : Key → Key) (s : IKeybind)
    (key_idx_ : nat) : exception + IKeybind :=
  if Key_Count <=? key_idx_ then inl out_of_range
  else inr (with_aKey (alter f key_idx_) s).


(** [s1] and [s2] differ at most in entries of [aKeybind] at positions at
    or beyond the recorded size of their slot. *)
Definition sameBelowSize (s1 s2 : IKeybind) : Prop :=
  aKey s1 = aKey s2 ∧ aKeybindSize s1 = aKeybindSize s2 ∧
  aPrimaryKeyState s1 = aPrimaryKeyState s2 ∧
  aEventOccurred s1 = aEventOccurred s2 ∧
  aUsedAsModifier s1 = aUsedAsModifier s2 ∧
  ∀ e j, j < aKeybindSize s1 !!! e → keyAt s1 e j = keyAt s2 e j.

(** A long chord whose required state is not met.  Slot 0 is [10, 20]
    asking for release, slot 1 is [20] asking for push; the keys are
    pressed as in the first scenario (key 20 is in state push). *)
Module Shadowed.

Definition registered : IKeybind :=
  state_of (assign 3 2 2 1 [20] (push bitflags)
    (state_of (assign 3 2 2 0 [10; 20] (release bitflags)
       (construct 3 2 2 Scenario.keys0)))).

End Shadowed.

(** The sentence about the used-as-modifier flag, read of [update] as a
    whole: "update() clears that key's used-as-modifier flag if and only
    if the key's refreshed state equals none or includes the idle bit; in
    every other state the flag's value is carried over unchanged from the
    previous cycle". *)
Definition flag_decay_as_stated (E : eStateValues)
    (Key_Count Event_Count : nat) (s : IKeybind)
    (refresh : nat → Key → Key) : Prop :=
  let s' := update E Key_Count Event_Count refresh s in
  ∀ i, i < Key_Count →
    (isNeutral E (aKey s' !!! i) = true →
     aUsedAsModifier s' !!! i = false) ∧
    (isNeutral E (aKey s' !!! i) = false →
     aUsedAsModifier s' !!! i = aUsedAsModifier s !!! i).

(** A later chord of the same length on the same primary key.  Slot 0 is
    [10, 20], slot 1 is [20], slot 2 is [30, 20]; all ask for push; the
    keys are pressed as in [ThreeChords]. *)
Module EqualRival.

Definition registered : IKeybind :=
  state_of (assign 3 3 2 2 [30; 20] (push bitflags)
    (state_of (assign 3 3 2 1 [20] (push bitflags)
      (state_of (assign 3 3 2 0 [10; 20] (push bitflags)
         (construct 3 3 2 Scenario.keys0)))))).

End EqualRival.

(** All keys released: every key reports idle. *)
Definition releaseAll (i : nat) (k : Key) : Key :=
  mkKey (id k) (idle bitflags) (pushTime k).

(** * Properties *)

(** ** Array reads and writes *)

Lemma anyTrue_true (l : list bool) :
  anyTrue l = true ↔ ∃ i, l !! i = Some true.
Proof.
  induction l as [|b l IH]; simpl.
  - split; [discriminate | intros [i Hi]; by rewrite lookup_nil in Hi].
  - destruct b.
    + split; [intros _; by exists 0 | done].
    + rewrite IH. split.
      * intros [i Hi]. by exists (S i).
      * intros [[|i] Hi]; [discriminate | by exists i].
Qed.

Lemma lookup_total_fill {A} `{!Inhabited A} (v : A) (l : list A) (i : nat) :
  i < length l → fill v l !!! i = v.
Proof. intros Hi. unfold fill. by apply lookup_total_replicate_2. Qed.

Lemma length_fill {A} (v : A) (l : list A) : length (fill v l) = length l.
Proof. unfold fill. apply length_replicate. Qed.

Lemma Forall_fill {A} (P : A → Prop) (v : A) (l : list A) :
  P v → Forall P (fill v l).
Proof. intros Hv. unfold fill. by apply Forall_replicate. Qed.

(** Writing one entry of one row of [aKeybind]. *)
Lemma keyAt_store (s : IKeybind) (e q j e' p : nat) :
  keyAt (with_aKeybind (alter (<[q := j]>) e) s) e' p =
  if decide (e' = e ∧ p = q ∧ e < length (aKeybind s)
             ∧ q < length (aKeybind s !!! e))
  then j else keyAt s e' p.
Proof.
  unfold keyAt, with_aKeybind; simpl.
  rewrite list_lookup_total_alter.
  case_decide as H1; case_decide as H2.
  - destruct H1 as [-> H1]. destruct H2 as (_ & -> & _ & H2).
    by rewrite list_lookup_total_insert_eq.
  - destruct H1 as [-> H1]. rewrite list_lookup_total_insert.
    case_decide as H3; [|done]. destruct H3 as [-> H3]. tauto.
  - destruct H2 as (-> & _ & H2 & _). tauto.
  - done.
Qed.

Lemma length_row_store (s : IKeybind) (e q j e' : nat) :
  length (aKeybind (with_aKeybind (alter (<[q := j]>) e) s) !!! e') =
  length (aKeybind s !!! e').
Proof.
  unfold with_aKeybind; simpl. rewrite list_lookup_total_alter.
  case_decide as H; [|done]. destruct H as [-> _]. apply length_insert.
Qed.

(** ** The query surface *)

Section Query.

Variable Event_Count : nat.

(** C7.  [isEvent] never fails: beyond the event capacity it answers
    [false], within it the slot's fired flag as [update] left it;
    [isAnyEvent] answers [true] exactly when some slot's fired flag is
    set, that is, when [isEvent] holds of some slot. *)
Theorem isEvent_total (s : IKeybind) :
  length (aEventOccurred s) = Event_Count →
  (∀ e, Event_Count ≤ e → isEvent Event_Count s e = false) ∧
  (∀ e, e < Event_Count →
        isEvent Event_Count s e = aEventOccurred s !!! e) ∧
  (isAnyEvent s = true ↔ ∃ e, aEventOccurred s !! e = Some true) ∧
  (isAnyEvent s = true ↔ ∃ e, isEvent Event_Count s e = true).
Proof.
  intros Hlen. unfold isEvent, isAnyEvent.
  split; [|split; [|split]].
  - intros e He. by rewrite (proj2 (Nat.leb_le _ _) He).
  - intros e He. by rewrite (proj2 (Nat.leb_gt _ _) He).
  - apply anyTrue_true.
  - rewrite anyTrue_true. split; intros [e He]; exists e.
    + pose proof (lookup_lt_Some _ _ _ He) as Hlt.
      rewrite (proj2 (Nat.leb_gt _ _)) by lia.
      by apply list_lookup_total_correct.
    + destruct (Nat.leb_spec Event_Count e) as [|Hlt]; [done|].
      rewrite <- He. apply list_lookup_lookup_total_lt. lia.
Qed.

End Query.

(** ** [clear] *)

(** C8.  After [clear], whatever the object held and whatever the keys
    report: every row of the index array is a row of zeros, every size is
    zero, every required state is the empty mask, no fired flag and no
    used-as-modifier flag is set, no array changed its extent, and the
    managed keys are the ones held before. *)
Theorem clear_resets (Keybind_Max : nat) (s : IKeybind) :
  let s' := clear Keybind_Max s in
  Forall (λ row, length row = Keybind_Max ∧ Forall (λ x, x = 0) row)
         (aKeybind s') ∧
  Forall (λ n, n = 0) (aKeybindSize s') ∧
  Forall (λ m, m = 0%Z) (aPrimaryKeyState s') ∧
  Forall (λ b, b = false) (aEventOccurred s') ∧
  Forall (λ b, b = false) (aUsedAsModifier s') ∧
  (length (aKeybind s') = length (aKeybind s) ∧
   length (aKeybindSize s') = length (aKeybindSize s) ∧
   length (aPrimaryKeyState s') = length (aPrimaryKeyState s) ∧
   length (aEventOccurred s') = length (aEventOccurred s) ∧
   length (aUsedAsModifier s') = length (aUsedAsModifier s)) ∧
  aKey s' = aKey s.
Proof.
  simpl. repeat split; try apply length_fill; try by apply Forall_fill.
  apply Forall_fill. split; [apply length_replicate|].
  by apply Forall_replicate.
Qed.

(** ** [assign] *)

Section Assign.

Variables Key_Count Event_Count Keybind_Max : nat.

Lemma findKey_from_Some (s : IKeybind) (kid n j k : nat) :
  findKey_from s kid n j = Some k →
  j ≤ k < j + n ∧ id (aKey s !!! k) = kid ∧
  ∀ k', j ≤ k' < k → id (aKey s !!! k') ≠ kid.
Proof.
  revert j. induction n as [|n IH]; intros j; simpl; [discriminate|].
  destruct (Nat.eqb_spec (id (aKey s !!! j)) kid) as [Heq|Hne].
  - intros [= <-]. repeat split; [lia..|done|]. intros k' Hk'. lia.
  - intros Hk. destruct (IH _ Hk) as (Hr & Hid & Hfirst).
    repeat split; [lia..|done|]. intros k' Hk'.
    destruct (decide (k' = j)) as [->|]; [done|]. apply Hfirst. lia.
Qed.

Lemma findKey_from_None (s : IKeybind) (kid n j : nat) :
  findKey_from s kid n j = None ↔
  ∀ k, j ≤ k < j + n → id (aKey s !!! k) ≠ kid.
Proof.
  revert j. induction n as [|n IH]; intros j; simpl.
  - split; [intros _ k Hk; lia | done].
  - destruct (Nat.eqb_spec (id (aKey s !!! j)) kid) as [Heq|Hne].
    + split; [discriminate|]. intros H. exfalso. apply (H j); [lia|done].
    + rewrite IH. split; intros H k Hk.
      * destruct (decide (k = j)) as [->|]; [done|]. apply H. lia.
      * apply H. lia.
Qed.

Lemma findKey_from_ext (s1 s2 : IKeybind) (kid n j : nat) :
  aKey s1 = aKey s2 → findKey_from s1 kid n j = findKey_from s2 kid n j.
Proof.
  intros Heq. revert j. induction n as [|n IH]; intros j; simpl; [done|].
  by rewrite Heq, IH.
Qed.

(** What the linear search answers. *)
Lemma findKey_Some (s : IKeybind) (kid k : nat) :
  findKey Key_Count s kid = Some k →
  k < Key_Count ∧ id (aKey s !!! k) = kid ∧
  ∀ k', k' < k → id (aKey s !!! k') ≠ kid.
Proof.
  intros H. destruct (findKey_from_Some _ _ _ _ _ H) as (Hr & Hid & Hf).
  repeat split; [lia|done|]. intros k' Hk'. apply Hf. lia.
Qed.

Lemma findKey_None (s : IKeybind) (kid : nat) :
  findKey Key_Count s kid = None ↔
  ∀ k, k < Key_Count → id (aKey s !!! k) ≠ kid.
Proof.
  unfold findKey. rewrite findKey_from_None.
  split; intros H k Hk; apply H; lia.
Qed.

Lemma findKey_is_Some (s : IKeybind) (kid : nat) :
  is_Some (findKey Key_Count s kid) ↔
  ∃ k, k < Key_Count ∧ id (aKey s !!! k) = kid.
Proof.
  split.
  - intros [k Hk]. exists k. by destruct (findKey_Some _ _ _ Hk) as (? & ? & _).
  - intros (k & Hk & Hid).
    destruct (findKey Key_Count s kid) as [k'|] eqn:Hf; [by eexists|].
    exfalso. by apply (proj1 (findKey_None _ _) Hf k).
Qed.

(** The outer loop of [assign], started at index [i], stops at an index
    [stop]: the end of the sequence, or the first id without a key.  The
    ids below [stop] were resolved and written, mirrored, into row
    [event_idx_]; nothing else was touched. *)
Lemma assign_from_spec (e : nat) (ids : list nat) (n i : nat) (s : IKeybind) :
  i + n = length ids →
  ∃ stop s',
    i ≤ stop ≤ length ids ∧
    (assign_from Key_Count e ids n i s = Done s' ∧ stop = length ids ∨
     assign_from Key_Count e ids n i s = Throw invalid_argument s' ∧
     stop < length ids ∧ findKey Key_Count s (ids !!! stop) = None) ∧
    (∀ i', i ≤ i' < stop → is_Some (findKey Key_Count s (ids !!! i'))) ∧
    aKey s' = aKey s ∧
    aKeybindSize s' = aKeybindSize s ∧
    aPrimaryKeyState s' = aPrimaryKeyState s ∧
    aEventOccurred s' = aEventOccurred s ∧
    aUsedAsModifier s' = aUsedAsModifier s ∧
    length (aKeybind s') = length (aKeybind s) ∧
    (∀ e', length (aKeybind s' !!! e') = length (aKeybind s !!! e')) ∧
    (∀ e' p,
       keyAt s' e' p =
       if decide (e' = e ∧ length ids - stop ≤ p < length ids - i ∧
                  e < length (aKeybind s) ∧ p < length (aKeybind s !!! e))
       then default 0 (findKey Key_Count s (ids !!! (length ids - p - 1)))
       else keyAt s e' p).
Proof.
  revert i s. induction n as [|n IH]; intros i s Hin; simpl.
  - exists (length ids), s. split_and!; try done; try lia.
    + by left.
    + intros e' p. case_decide as H; [lia|done].
  - destruct (findKey Key_Count s (ids !!! i)) as [j|] eqn:Hfind.
    + set (s1 := with_aKeybind (alter (<[length ids - i - 1 := j]>) e) s).
      destruct (IH (S i) s1 ltac:(lia))
        as (stop & s' & Hstop & Hout & Hsome & HK & HS & HP & HE & HU
            & HL & HR & Hat).
      assert (Hfk : ∀ kid, findKey Key_Count s1 kid = findKey Key_Count s kid)
        by (intros kid; by apply findKey_from_ext).
      exists stop, s'. split; [lia|]. split.
      { destruct Hout as [[-> ->]|(-> & Hlt & Hnone)]; [by left|right].
        by rewrite <- Hfk. }
      split.
      { intros i' Hi'. destruct (decide (i' = i)) as [->|].
        - rewrite Hfind. by eexists.
        - rewrite <- Hfk. apply Hsome. lia. }
      split_and!; try done.
      { rewrite HL. unfold s1, with_aKeybind; simpl. apply length_alter. }
      { intros e'. rewrite HR. apply length_row_store. }
      intros e' p.
      assert (Hat1 : ∀ e' p, keyAt s1 e' p =
                if decide (e' = e ∧ p = length ids - i - 1 ∧
                           e < length (aKeybind s) ∧
                           length ids - i - 1 < length (aKeybind s !!! e))
                then j else keyAt s e' p)
        by (intros; apply keyAt_store).
      assert (Hlen1 : length (aKeybind s1) = length (aKeybind s))
        by (unfold s1, with_aKeybind; simpl; apply length_alter).
      assert (Hrow1 : ∀ e', length (aKeybind s1 !!! e')
                            = length (aKeybind s !!! e'))
        by (intros; apply length_row_store).
      rewrite Hat, Hat1, Hlen1, Hrow1, Hfk.
      match goal with
      | |- (if decide ?C1 then _ else if decide ?C2 then _ else _)
           = (if decide ?C3 then _ else _) =>
          destruct (decide C1) as [H1|H1]; destruct (decide C2) as [H2|H2];
          destruct (decide C3) as [H3|H3]
      end; try done; try (exfalso; lia).
      destruct H2 as (_ & -> & _).
      replace (length ids - (length ids - i - 1) - 1) with i by lia.
      by rewrite Hfind.
    + exists i, s. split_and!; try done; try lia.
      * right. split_and!; [done|lia|done].
      * intros e' p. case_decide as H; [lia|done].
Qed.

(** [assign] as a whole: which exception, if any, and what the object
    holds afterwards, in terms of the stopping index of the loop. *)
Lemma assign_spec (e : nat) (ids : list nat) (st : Z) (s : IKeybind) :
  (Event_Count ≤ e ∨ Keybind_Max < length ids) ∧
    assign Key_Count Event_Count Keybind_Max e ids st s
    = Throw out_of_range s
  ∨ (e < Event_Count ∧ length ids ≤ Keybind_Max) ∧
    ∃ stop s1,
      stop ≤ length ids ∧
      (∀ i, i < stop → is_Some (findKey Key_Count s (ids !!! i))) ∧
      aKey s1 = aKey s ∧
      aKeybindSize s1 = aKeybindSize s ∧
      aPrimaryKeyState s1 = aPrimaryKeyState s ∧
      aEventOccurred s1 = aEventOccurred s ∧
      aUsedAsModifier s1 = aUsedAsModifier s ∧
      length (aKeybind s1) = length (aKeybind s) ∧
      (∀ e', length (aKeybind s1 !!! e') = length (aKeybind s !!! e')) ∧
      (∀ e' p,
         keyAt s1 e' p =
         if decide (e' = e ∧ length ids - stop ≤ p < length ids ∧
                    e < length (aKeybind s) ∧ p < length (aKeybind s !!! e))
         then default 0 (findKey Key_Count s (ids !!! (length ids - p - 1)))
         else keyAt s e' p) ∧
      (stop = length ids ∧
       assign Key_Count Event_Count Keybind_Max e ids st s
       = Done (with_aKeybindSize (<[e := length ids]>)
                 (with_aPrimaryKeyState (<[e := st]>) s1))
       ∨ stop < length ids ∧
         findKey Key_Count s (ids !!! stop) = None ∧
         assign Key_Count Event_Count Keybind_Max e ids st s
         = Throw invalid_argument s1).
Proof.
  unfold assign.
  destruct (Nat.leb_spec Event_Count e) as [He|He]; [left; split; [lia|done]|].
  destruct (Nat.ltb_spec Keybind_Max (length ids)) as [HN|HN];
    [left; split; [lia|done]|].
  right. split; [done|].
  destruct (assign_from_spec e ids (length ids) 0 s ltac:(lia))
    as (stop & s1 & Hstop & Hout & Hsome & HK & HS & HP & HE & HU
        & HL & HR & Hat).
  exists stop, s1. split_and!; try done; try lia.
  - intros i Hi. apply Hsome. lia.
  - intros e' p. rewrite Hat. by rewrite Nat.sub_0_r.
  - destruct Hout as [[-> ->]|(-> & Hlt & Hnone)]; [by left|by right].
Qed.

(** C6.  [assign] throws [out_of_range] exactly when the event index is
    not below the event capacity or the sequence is longer than the
    maximum chord length; it throws [invalid_argument] exactly when both
    bounds hold and some supplied id is the id of no managed key; it
    succeeds exactly when both bounds hold and every supplied id is the
    id of a managed key. *)
Theorem assign_errors (s : IKeybind) (e : nat) (ids : list nat) (st : Z) :
  ((∃ s', assign Key_Count Event_Count Keybind_Max e ids st s
          = Throw out_of_range s') ↔
   Event_Count ≤ e ∨ Keybind_Max < length ids) ∧
  ((∃ s', assign Key_Count Event_Count Keybind_Max e ids st s
          = Throw invalid_argument s') ↔
   (e < Event_Count ∧ length ids ≤ Keybind_Max) ∧
   ∃ i, i < length ids ∧
        ∀ k, k < Key_Count → id (aKey s !!! k) ≠ ids !!! i) ∧
  ((∃ s', assign Key_Count Event_Count Keybind_Max e ids st s = Done s') ↔
   (e < Event_Count ∧ length ids ≤ Keybind_Max) ∧
   ∀ i, i < length ids →
        ∃ k, k < Key_Count ∧ id (aKey s !!! k) = ids !!! i).
Proof.
  destruct (assign_spec e ids st s)
    as [[Hb ->]|[Hb (stop & s1 & Hstop & Hsome & _ & _ & _ & _ & _ & _ & _
                     & _ & Hout)]].
  - split_and!; split.
    + done.
    + intros _. by eexists.
    + intros [s' [=]].
    + intros [? _]. lia.
    + intros [s' [=]].
    + intros [? _]. lia.
  - destruct Hout as [[-> ->]|(Hlt & Hnone & ->)].
    + split_and!; split.
      * intros [s' [=]].
      * intros ?. lia.
      * intros [s' [=]].
      * intros (_ & i & Hi & Hno). apply findKey_None in Hno.
        destruct (Hsome i Hi) as [k Hk]. congruence.
      * intros _. split; [done|]. intros i Hi.
        by apply findKey_is_Some, Hsome.
      * intros _. by eexists.
    + split_and!; split.
      * intros [s' [=]].
      * intros ?. lia.
      * intros _. split; [done|]. exists stop. split; [done|].
        by apply findKey_None.
      * intros _. by eexists.
      * intros [s' [=]].
      * intros (_ & Hall). destruct (Hall stop Hlt) as (k & Hk & Hid).
        exfalso. by apply (proj1 (findKey_None _ _) Hnone k).
Qed.

(** C5.  After a successful [assign] of a sequence of length [L] to slot
    [event_idx_]: stored position [p < L] is the index that the linear
    search gives for the id at input position [L - 1 - p], that is, the
    first storage index whose key has this id, so position 0 names a key
    with the last supplied id; the slot's size is [L] and its required
    primary state is [key_state_].  The managed keys are untouched. *)
Theorem assign_stores_reversed (s s' : IKeybind) (e : nat) (ids : list nat)
    (st : Z) :
  wf Key_Count Event_Count Keybind_Max s →
  assign Key_Count Event_Count Keybind_Max e ids st s = Done s' →
  (∀ p, p < length ids →
     findKey Key_Count s (ids !!! (length ids - 1 - p))
     = Some (keyAt s' e p) ∧
     keyAt s' e p < Key_Count ∧
     id (aKey s' !!! keyAt s' e p) = ids !!! (length ids - 1 - p) ∧
     ∀ k, k < keyAt s' e p →
          id (aKey s' !!! k) ≠ ids !!! (length ids - 1 - p)) ∧
  (0 < length ids → Some (id (aKey s' !!! keyAt s' e 0)) = last ids) ∧
  aKeybindSize s' !!! e = length ids ∧
  aPrimaryKeyState s' !!! e = st ∧
  aKey s' = aKey s.
Proof.
  intros Hwf Hassign.
  destruct (assign_spec e ids st s)
    as [[Hb Heq]|[[He HN] (stop & s1 & Hstop & Hsome & HK & HS & HP & _ & _
                           & HL & HR & Hat & Hout)]]; [congruence|].
  destruct Hout as [[-> Heq]|(_ & _ & Heq)]; [|congruence].
  rewrite Hassign in Heq. injection Heq as ->.
  assert (Hpos : ∀ p, p < length ids →
            findKey Key_Count s (ids !!! (length ids - 1 - p))
            = Some (keyAt s1 e p)).
  { intros p Hp. rewrite Hat. rewrite decide_True.
    - replace (length ids - p - 1) with (length ids - 1 - p) by lia.
      destruct (Hsome (length ids - 1 - p) ltac:(lia)) as [k ->]. done.
    - split_and!; try done; try lia.
      + rewrite (wf_aKeybind _ _ _ _ Hwf). lia.
      + rewrite (wf_row _ _ _ _ Hwf) by lia. lia. }
  assert (Hfacts : ∀ p, p < length ids →
     findKey Key_Count s (ids !!! (length ids - 1 - p))
     = Some (keyAt s1 e p) ∧
     keyAt s1 e p < Key_Count ∧
     id (aKey s1 !!! keyAt s1 e p) = ids !!! (length ids - 1 - p) ∧
     ∀ k, k < keyAt s1 e p →
          id (aKey s1 !!! k) ≠ ids !!! (length ids - 1 - p)).
  { intros p Hp. pose proof (Hpos p Hp) as Hf.
    destruct (findKey_Some _ _ _ Hf) as (Hlt & Hid & Hfirst).
    rewrite HK. done. }
  split_and!.
  - exact Hfacts.
  - intros Hpos0. destruct (Hfacts 0 Hpos0) as (_ & _ & Hid & _).
    change (keyAt (with_aKeybindSize _ (with_aPrimaryKeyState _ s1)) e 0)
      with (keyAt s1 e 0).
    change (aKey (with_aKeybindSize _ (with_aPrimaryKeyState _ s1)))
      with (aKey s1).
    rewrite Hid, last_lookup.
    replace (length ids - 1 - 0) with (pred (length ids)) by lia.
    symmetry. apply list_lookup_lookup_total_lt. lia.
  - simpl. apply list_lookup_total_insert_eq.
    rewrite HS, (wf_aKeybindSize _ _ _ _ Hwf). lia.
  - simpl. apply list_lookup_total_insert_eq.
    rewrite HP, (wf_aPrimaryKeyState _ _ _ _ Hwf). lia.
  - done.
Qed.

(** C10.  When [assign] throws [invalid_argument], the sizes, the
    required primary states, the flags and the keys are those from
    before the call, and so is every entry of the index array except,
    possibly, the entries of the target row at the mirrored positions of
    the ids that precede the first id without a key.  In particular the
    target slot reports the size it had. *)
Theorem assign_invalid_argument_frame (s s' : IKeybind) (e : nat)
    (ids : list nat) (st : Z) :
  assign Key_Count Event_Count Keybind_Max e ids st s
  = Throw invalid_argument s' →
  aKeybindSize s' = aKeybindSize s ∧
  aPrimaryKeyState s' = aPrimaryKeyState s ∧
  aKey s' = aKey s ∧
  aEventOccurred s' = aEventOccurred s ∧
  aUsedAsModifier s' = aUsedAsModifier s ∧
  (∃ k, k < length ids ∧
        (∀ j, j < Key_Count → id (aKey s !!! j) ≠ ids !!! k) ∧
        (∀ i, i < k → ∃ j, j < Key_Count ∧ id (aKey s !!! j) = ids !!! i) ∧
        ∀ e' p, keyAt s' e' p ≠ keyAt s e' p →
                e' = e ∧ length ids - k ≤ p < length ids ∧
                findKey Key_Count s (ids !!! (length ids - 1 - p))
                = Some (keyAt s' e p)) ∧
  (∀ n, 0 < n → aKeybindSize s !!! e = n → aKeybindSize s' !!! e = n).
Proof.
  intros Hassign.
  destruct (assign_spec e ids st s)
    as [[Hb Heq]|[[He HN] (stop & s1 & Hstop & Hsome & HK & HS & HP & HE & HU
                           & HL & HR & Hat & Hout)]]; [congruence|].
  destruct Hout as [[_ Heq]|(Hlt & Hnone & Heq)]; [congruence|].
  rewrite Hassign in Heq. injection Heq as ->.
  split_and!; try done.
  - exists stop. split_and!; try done.
    + by apply findKey_None.
    + intros i Hi. by apply findKey_is_Some, Hsome.
    + intros e' p. rewrite Hat.
      match goal with
      | |- (if decide ?C then _ else _) ≠ _ → _ =>
          destruct (decide C) as [Hc|Hc]; [|intros Hne; by destruct Hne]
      end.
      intros _. destruct Hc as (-> & Hp & Hb1 & Hb2).
      split_and!; try done; try lia.
      rewrite Hat. rewrite decide_True by (split_and!; try done; lia).
      replace (length ids - p - 1) with (length ids - 1 - p) by lia.
      destruct (Hsome (length ids - 1 - p) ltac:(lia)) as [j ->]. done.
  - intros n _ <-. by rewrite HS.
Qed.


End Assign.

(** ** The resolver *)

Section Resolver.

Variable E : eStateValues.
Variables Key_Count Event_Count Keybind_Max : nat.

Lemma anyBit_true (a b : Z) : anyBit a b = true ↔ Z.land a b ≠ 0%Z.
Proof.
  unfold anyBit. destruct (Z.eqb_spec (Z.land a b) 0) as [->|Hne]; simpl.
  - split; [discriminate|done].
  - done.
Qed.

(** The mask test of [isValidSequence], bit by bit: the state has the
    push bit, the hold bit or the delay bit. *)
Lemma isPressed_true (k : Key) :
  isPressed E k = true ↔
  Z.land (state k) (push E) ≠ 0%Z ∨ Z.land (state k) (hold E) ≠ 0%Z
  ∨ Z.land (state k) (delay E) ≠ 0%Z.
Proof.
  unfold isPressed. rewrite anyBit_true, !Z.land_lor_distr_r.
  rewrite !Z.lor_eq_0_iff. split.
  - intros H.
    destruct (Z.eq_dec (Z.land (state k) (push E)) 0%Z) as [H1|]; [|tauto].
    destruct (Z.eq_dec (Z.land (state k) (hold E)) 0%Z) as [H2|]; [|tauto].
    right; right. intros H3. apply H. tauto.
  - intros [H|[H|H]] [[H1 H2] H3]; tauto.
Qed.

Lemma isNeutral_true (k : Key) :
  isNeutral E k = true ↔
  state k = none E ∨ Z.land (state k) (idle E) ≠ 0%Z.
Proof.
  unfold isNeutral. rewrite orb_true_iff, anyBit_true, Z.eqb_eq. done.
Qed.

(** *** Sequence validation *)

Lemma isValidSequence_from_true (s : IKeybind) (e n j : nat) :
  isValidSequence_from E s e n j = true ↔
  (∀ j', j ≤ j' < j + n →
     isPressed E (aKey s !!! keyAt s e j') = true ∧
     (pushTime (aKey s !!! keyAt s e j')
      ≤ pushTime (aKey s !!! keyAt s e (j' - 1)))%Z) ∧
  state (aKey s !!! keyAt s e 0) ≠ none E.
Proof.
  revert j. induction n as [|n IH]; intros j; simpl.
  - rewrite negb_true_iff, Z.eqb_neq. split.
    + intros H. split; [intros j' Hj'; lia|done].
    + by intros [_ H].
  - destruct (isPressed E (aKey s !!! keyAt s e j)) eqn:Hp; simpl.
    + destruct (Z.gtb_spec (pushTime (aKey s !!! keyAt s e j))
                  (pushTime (aKey s !!! keyAt s e (j - 1)))) as [Hgt|Hle].
      * split; [discriminate|]. intros [H _].
        destruct (H j ltac:(lia)) as [_ Hle]. lia.
      * rewrite IH. split; intros [H Hnone]; (split; [|done]).
        -- intros j' Hj'. destruct (decide (j' = j)) as [->|].
           ++ done.
           ++ apply H. lia.
        -- intros j' Hj'. apply H. lia.
    + split; [discriminate|]. intros [H _].
      destruct (H j ltac:(lia)) as [Htrue _]. congruence.
Qed.

Lemma isValidSequence_true (s : IKeybind) (e : nat) :
  isValidSequence E s e = true ↔
  (∀ j, 1 ≤ j < aKeybindSize s !!! e →
     isPressed E (aKey s !!! keyAt s e j) = true ∧
     (pushTime (aKey s !!! keyAt s e j)
      ≤ pushTime (aKey s !!! keyAt s e (j - 1)))%Z) ∧
  state (aKey s !!! keyAt s e 0) ≠ none E.
Proof.
  unfold isValidSequence. rewrite isValidSequence_from_true.
  split; intros [H Hnone]; (split; [|done]); intros j Hj; apply H; lia.
Qed.

(** Validation reads the keys and the definitions only. *)
Lemma isValidSequence_ext (s1 s2 : IKeybind) (e : nat) :
  aKey s1 = aKey s2 → aKeybind s1 = aKeybind s2 →
  aKeybindSize s1 = aKeybindSize s2 →
  isValidSequence E s1 e = isValidSequence E s2 e.
Proof.
  intros HK HB HS. unfold isValidSequence. rewrite HS.
  assert (HkA : ∀ j, keyAt s1 e j = keyAt s2 e j)
    by (intros j; unfold keyAt; by rewrite HB).
  assert (Hfrom : ∀ n j, isValidSequence_from E s1 e n j
                         = isValidSequence_from E s2 e n j); [|apply Hfrom].
  intros n. induction n as [|n IH]; intros j; cbn [isValidSequence_from].
  - by rewrite HkA, HK.
  - by rewrite !HkA, HK, IH.
Qed.

(** *** Marking and finalization *)

Lemma foldl_mark_frame (e : nat) (js : list nat) (s : IKeybind) :
  let s' := foldl (λ s j, with_aUsedAsModifier (<[keyAt s e j := true]>) s)
                  s js in
  sameInputs s s' ∧ aEventOccurred s' = aEventOccurred s ∧
  length (aUsedAsModifier s') = length (aUsedAsModifier s) ∧
  (∀ k, aUsedAsModifier s !!! k = true → aUsedAsModifier s' !!! k = true) ∧
  (∀ j, j ∈ js → keyAt s e j < length (aUsedAsModifier s) →
        aUsedAsModifier s' !!! keyAt s e j = true).
Proof.
  revert s. induction js as [|j js IH]; intros s; simpl.
  - split_and!; try done. intros j Hj. by apply elem_of_nil in Hj.
  - set (s1 := with_aUsedAsModifier (<[keyAt s e j := true]>) s).
    destruct (IH s1) as ((HK & HB & HS & HP) & HE & HL & Hmono & Hset).
    assert (Hmono1 : ∀ k, aUsedAsModifier s !!! k = true →
                          aUsedAsModifier s1 !!! k = true).
    { intros k Hk. simpl. rewrite list_lookup_total_insert.
      by case_decide. }
    split_and!; try done.
    + rewrite HL. simpl. apply length_insert.
    + intros k Hk. by apply Hmono, Hmono1.
    + intros j' [->|Hj']%elem_of_cons Hlt.
      * apply Hmono. simpl. by apply list_lookup_total_insert_eq.
      * apply (Hset j' Hj'). simpl. by rewrite length_insert.
Qed.

Lemma markModifiersAsUsed_frame (s : IKeybind) (e : nat) :
  let s' := markModifiersAsUsed s e in
  sameInputs s s' ∧ aEventOccurred s' = aEventOccurred s ∧
  length (aUsedAsModifier s') = length (aUsedAsModifier s) ∧
  (∀ k, aUsedAsModifier s !!! k = true → aUsedAsModifier s' !!! k = true) ∧
  (∀ X, isModifierOf s e X → X < length (aUsedAsModifier s) →
        aUsedAsModifier s' !!! X = true).
Proof.
  unfold markModifiersAsUsed.
  destruct (foldl_mark_frame e (seq 1 (aKeybindSize s !!! e - 1)) s)
    as (Hin & HE & HL & Hmono & Hset).
  split_and!; try done.
  intros X (j & Hj & <-) Hlt. apply Hset; [|done].
  apply elem_of_seq. lia.
Qed.

Lemma finalizeStep_spec (best : list nat) (s : IKeybind) (i : nat) :
  let s' := finalizeStep best s i in
  sameInputs s s' ∧
  length (aEventOccurred s') = length (aEventOccurred s) ∧
  length (aUsedAsModifier s') = length (aUsedAsModifier s) ∧
  (∀ k, aUsedAsModifier s !!! k = true → aUsedAsModifier s' !!! k = true) ∧
  (∀ e X, firesFor s best i e → isModifierOf s e X →
          X < length (aUsedAsModifier s) →
          aUsedAsModifier s' !!! X = true) ∧
  (∀ e, aEventOccurred s' !!! e = true ↔
        aEventOccurred s !!! e = true ∨
        (e < length (aEventOccurred s) ∧ firesFor s best i e)).
Proof.
  unfold finalizeStep, firesFor.
  destruct (Nat.eqb_spec (best !!! i) 0) as [H0|H0].
  { split_and!; try done.
    - intros e X (Hne & _). done.
    - intros e. split; [by left|]. intros [H|(_ & Hne & _)]; done. }
  destruct (anyBit (aPrimaryKeyState s !!! (best !!! i - 1))
                   (state (aKey s !!! i))) eqn:Hbit; simpl.
  - destruct (markModifiersAsUsed_frame s (best !!! i - 1))
      as (Hin & HE & HL & Hmono & Hset).
    split_and!; try done.
    + simpl. rewrite length_insert. by rewrite HE.
    + intros e X (_ & <- & _). apply Hset.
    + intros e. simpl. rewrite HE, list_lookup_total_insert. split.
      * case_decide as Hd; [|by left]. destruct Hd as [<- Hlt].
        intros _. right. done.
      * intros [He|(Hlt & _ & <- & _)]; case_decide as Hd; try done.
        exfalso. apply Hd. done.
  - split_and!; try done.
    + intros e X (_ & <- & Hbit'). congruence.
    + intros e. split; [by left|].
      intros [H|(_ & _ & <- & Hbit')]; [done|congruence].
Qed.

Lemma sameInputs_firesFor (s s' : IKeybind) (best : list nat) (i e : nat) :
  sameInputs s s' → firesFor s' best i e ↔ firesFor s best i e.
Proof. intros (HK & _ & _ & HP). unfold firesFor. by rewrite HK, HP. Qed.

Lemma sameInputs_isModifierOf (s s' : IKeybind) (e X : nat) :
  sameInputs s s' → isModifierOf s' e X ↔ isModifierOf s e X.
Proof.
  intros (_ & HB & HS & _). unfold isModifierOf, keyAt. by rewrite HB, HS.
Qed.

Lemma sameInputs_trans (s1 s2 s3 : IKeybind) :
  sameInputs s1 s2 → sameInputs s2 s3 → sameInputs s1 s3.
Proof.
  intros (?&?&?&?) (?&?&?&?). unfold sameInputs.
  split_and!; congruence.
Qed.

Lemma foldl_finalize_spec (best : list nat) (ks : list nat) (s : IKeybind) :
  let s' := foldl (finalizeStep best) s ks in
  sameInputs s s' ∧
  length (aEventOccurred s') = length (aEventOccurred s) ∧
  length (aUsedAsModifier s') = length (aUsedAsModifier s) ∧
  (∀ k, aUsedAsModifier s !!! k = true → aUsedAsModifier s' !!! k = true) ∧
  (∀ i e X, i ∈ ks → firesFor s best i e → isModifierOf s e X →
            X < length (aUsedAsModifier s) →
            aUsedAsModifier s' !!! X = true) ∧
  (∀ e, aEventOccurred s' !!! e = true ↔
        aEventOccurred s !!! e = true ∨
        (e < length (aEventOccurred s) ∧ ∃ i, i ∈ ks ∧ firesFor s best i e)).
Proof.
  revert s. induction ks as [|i ks IH]; intros s; simpl.
  - split_and!; try done.
    + intros i e X Hi. by apply elem_of_nil in Hi.
    + intros e. split; [by left|].
      intros [H|(_ & i & Hi & _)]; [done|by apply elem_of_nil in Hi].
  - destruct (finalizeStep_spec best s i)
      as (Hin1 & HLE1 & HLU1 & Hmono1 & Hset1 & Hev1).
    destruct (IH (finalizeStep best s i))
      as (Hin & HLE & HLU & Hmono & Hset & Hev).
    split_and!.
    + by eapply sameInputs_trans.
    + congruence.
    + congruence.
    + intros k Hk. by apply Hmono, Hmono1.
    + intros i' e X [->|Hi']%elem_of_cons Hf Hm Hlt.
      * apply Hmono. by eapply Hset1.
      * eapply Hset; [done| | |congruence].
        -- by apply (sameInputs_firesFor _ _ _ _ _ Hin1).
        -- by apply (sameInputs_isModifierOf _ _ _ _ Hin1).
    + intros e. rewrite Hev, Hev1, HLE1. split.
      * intros [[H|(Hlt & Hf)]|(Hlt & i' & Hi' & Hf)].
        -- by left.
        -- right. split; [done|]. exists i. split; [apply elem_of_cons; by left|done].
        -- right. split; [done|]. exists i'.
           split; [apply elem_of_cons; by right|].
           by apply (sameInputs_firesFor _ _ _ _ _ Hin1).
      * intros [H|(Hlt & i' & [->|Hi']%elem_of_cons & Hf)].
        -- by left; left.
        -- left; right. done.
        -- right. split; [done|]. exists i'. split; [done|].
           by apply (sameInputs_firesFor _ _ _ _ _ Hin1).
Qed.

(** What [searchKeybind] does to the object: it reads the keys and the
    definitions, sets fired flags, and sets used-as-modifier flags. *)
Lemma searchKeybind_spec (s : IKeybind) :
  let s' := searchKeybind E Key_Count Event_Count s in
  let best := searchCandidates E Key_Count Event_Count s in
  sameInputs s s' ∧
  length (aEventOccurred s') = length (aEventOccurred s) ∧
  length (aUsedAsModifier s') = length (aUsedAsModifier s) ∧
  (∀ k, aUsedAsModifier s !!! k = true → aUsedAsModifier s' !!! k = true) ∧
  (∀ i e X, i < Key_Count → firesFor s best i e → isModifierOf s e X →
            X < length (aUsedAsModifier s) →
            aUsedAsModifier s' !!! X = true) ∧
  (∀ e, aEventOccurred s' !!! e = true ↔
        aEventOccurred s !!! e = true ∨
        (e < length (aEventOccurred s) ∧
         ∃ i, i < Key_Count ∧ firesFor s best i e)).
Proof.
  unfold searchKeybind.
  destruct (foldl_finalize_spec
              (searchCandidates E Key_Count Event_Count s)
              (seq 0 Key_Count) s)
    as (Hin & HLE & HLU & Hmono & Hset & Hev).
  split_and!; try done.
  - intros i e X Hi. apply Hset. apply elem_of_seq. lia.
  - intros e. rewrite Hev. split.
    + intros [H|(Hlt & i & Hi%elem_of_seq & Hf)]; [by left|right].
      split; [done|]. exists i. split; [lia|done].
    + intros [H|(Hlt & i & Hi & Hf)]; [by left|right].
      split; [done|]. exists i. split; [apply elem_of_seq; lia|done].
Qed.


(** *** The candidate search *)

Lemma candidatesUpTo_S (s : IKeybind) (n : nat) :
  candidatesUpTo E Key_Count s (S n)
  = candidateStep E s (candidatesUpTo E Key_Count s n) n.
Proof. unfold candidatesUpTo. by rewrite seq_S, foldl_app. Qed.

Lemma length_candidateStep (s : IKeybind) (best : list nat) (i : nat) :
  length (candidateStep E s best i) = length best.
Proof.
  unfold candidateStep. repeat case_match; try done. apply length_insert.
Qed.

Lemma length_candidatesUpTo (s : IKeybind) (n : nat) :
  length (candidatesUpTo E Key_Count s n) = Key_Count.
Proof.
  induction n as [|n IH].
  - apply length_replicate.
  - by rewrite candidatesUpTo_S, length_candidateStep.
Qed.

Lemma u8_id (n : nat) : n < 256 → u8 n = n.
Proof. intros Hn. unfold u8. by apply Nat.mod_small. Qed.

(** One step either leaves the table as it is, or records [i + 1] for
    the primary key of [i], and then [i] passed every check. *)
Lemma candidateStep_cases (s : IKeybind) (best : list nat) (i : nat) :
  i < 255 →
  candidateStep E s best i = best ∨
  (candidateStep E s best i = <[keyAt s i 0 := i + 1]> best ∧
   aKeybindSize s !!! i ≠ 0 ∧
   skipForLength s best i = false ∧
   isUsedAsModifier s (keyAt s i 0) = false ∧
   isValidSequence E s i = true).
Proof.
  intros Hi. unfold candidateStep, isEmptyKeybind.
  destruct (Nat.eqb_spec (aKeybindSize s !!! i) 0) as [|Hsz]; [by left|].
  destruct (skipForLength s best i); [by left|].
  destruct (isUsedAsModifier s (keyAt s i 0)); [by left|].
  destruct (isValidSequence E s i); simpl; [|by left].
  right. rewrite u8_id by lia. done.
Qed.

(** Every recorded candidate is an assigned definition examined so far,
    recorded under its own primary key, whose primary key did not carry
    the used-as-modifier flag and whose sequence was valid. *)
Lemma candidatesUpTo_sound (s : IKeybind) (n p : nat) :
  n ≤ 255 →
  candidatesUpTo E Key_Count s n !!! p ≠ 0 →
  ∃ i, i < n ∧ candidatesUpTo E Key_Count s n !!! p = i + 1 ∧
       isPrimaryOf s i p ∧ p < Key_Count ∧
       isUsedAsModifier s p = false ∧ isValidSequence E s i = true.
Proof.
  induction n as [|n IH]; intros Hn.
  - unfold candidatesUpTo; simpl. intros H. exfalso. apply H.
    destruct (decide (p < Key_Count)) as [Hp|Hp].
    + by apply lookup_total_replicate_2.
    + rewrite list_lookup_total_alt, (proj1 (lookup_replicate_None _ _ _));
        [done|lia].
  - rewrite candidatesUpTo_S.
    destruct (candidateStep_cases s (candidatesUpTo E Key_Count s n) n
                ltac:(lia)) as [->|(-> & Hsz & _ & Hused & Hvalid)].
    + intros H. destruct (IH ltac:(lia) H) as (i & Hi & ?). exists i.
      split; [lia|done].
    + rewrite list_lookup_total_insert. case_decide as Hd.
      * destruct Hd as [<- Hlt]. intros _. exists n.
        rewrite length_candidatesUpTo in Hlt.
        split_and!; try done; lia.
      * intros H. destruct (IH ltac:(lia) H) as (i & Hi & ?). exists i.
        split; [lia|done].
Qed.

(** *** The refresh loop *)

Lemma refresh_fold_spec (refresh : nat → Key → Key) (n : nat)
    (s0 : IKeybind) :
  let s' := foldl (refreshStep E refresh) s0 (seq 0 n) in
  aKeybind s' = aKeybind s0 ∧ aKeybindSize s' = aKeybindSize s0 ∧
  aPrimaryKeyState s' = aPrimaryKeyState s0 ∧
  aEventOccurred s' = aEventOccurred s0 ∧
  length (aKey s') = length (aKey s0) ∧
  length (aUsedAsModifier s') = length (aUsedAsModifier s0) ∧
  (∀ i, aKey s' !!! i =
        if decide (i < n ∧ i < length (aKey s0))
        then refresh i (aKey s0 !!! i) else aKey s0 !!! i) ∧
  (∀ i, aUsedAsModifier s' !!! i =
        if decide (i < n ∧ i < length (aUsedAsModifier s0))
        then (if isNeutral E (aKey s' !!! i) then false
              else aUsedAsModifier s0 !!! i)
        else aUsedAsModifier s0 !!! i).
Proof.
  induction n as [|n IH].
  - simpl. split_and!; try done;
      intros i; (rewrite decide_False; [done|lia]).
  - rewrite seq_S, foldl_app. cbv zeta in IH. simpl.
    destruct IH as (HB & HS & HP & HE & HLK & HLU & HK & HU).
    set (sn := foldl (refreshStep E refresh) s0 (seq 0 n)) in *.
    unfold refreshStep.
    remember (with_aKey (alter (refresh n) n) sn) as s1 eqn:Hs1.
    assert (HK1 : ∀ i, aKey s1 !!! i =
              if decide (i < S n ∧ i < length (aKey s0))
              then refresh i (aKey s0 !!! i) else aKey s0 !!! i).
    { intros i. rewrite Hs1; simpl.
      rewrite list_lookup_total_alter, !HK, HLK.
      destruct (decide (n = i ∧ n < length (aKey s0))) as [[-> Hlt]|Hd].
      - rewrite decide_False by lia. by rewrite decide_True by lia.
      - destruct (decide (i < n ∧ i < length (aKey s0))) as [Hd'|Hd'].
        + by rewrite decide_True by lia.
        + by rewrite decide_False by lia. }
    assert (HKn : ∀ i, i ≠ n → aKey s1 !!! i = aKey sn !!! i).
    { intros i Hi. rewrite Hs1; simpl.
      by rewrite list_lookup_total_alter_ne. }
    assert (Hframe1 : aKeybind s1 = aKeybind s0 ∧
              aKeybindSize s1 = aKeybindSize s0 ∧
              aPrimaryKeyState s1 = aPrimaryKeyState s0 ∧
              aEventOccurred s1 = aEventOccurred s0 ∧
              length (aKey s1) = length (aKey s0) ∧
              aUsedAsModifier s1 = aUsedAsModifier sn).
    { rewrite Hs1; simpl. rewrite length_alter. done. }
    destruct Hframe1 as (HB1 & HS1 & HP1 & HE1 & HLK1 & HU1).
    clear Hs1.
    destruct (isNeutral E (aKey s1 !!! n)) eqn:Hneutral.
    + split_and!; try done.
      * simpl. by rewrite length_insert, HU1.
      * intros i. simpl. rewrite list_lookup_total_insert, HU1, HLU.
        destruct (decide (n = i ∧ n < length (aUsedAsModifier s0)))
          as [[<- Hlt]|Hd].
        -- rewrite decide_True by lia. by rewrite Hneutral.
        -- rewrite HU.
           destruct (decide (i < n ∧ i < length (aUsedAsModifier s0)))
             as [Hd'|Hd'].
           ++ rewrite decide_True by lia. rewrite HKn by lia. done.
           ++ by rewrite decide_False by lia.
    + split_and!; try done; try congruence.
      intros i. rewrite HU1, HU.
      destruct (decide (i < n ∧ i < length (aUsedAsModifier s0)))
        as [Hd'|Hd'].
      * rewrite decide_True by lia. rewrite HKn by lia. done.
      * destruct (decide (i = n ∧ n < length (aUsedAsModifier s0)))
          as [[-> Hlt]|Hd].
        -- rewrite decide_True by lia. by rewrite Hneutral.
        -- by rewrite decide_False by lia.
Qed.

(** [update] up to the call of [searchKeybind]: every fired flag is
    cleared, every key is refreshed, and a used-as-modifier flag is
    cleared when the refreshed key is neutral and kept otherwise. *)
Lemma beginCycle_spec (refresh : nat → Key → Key) (s : IKeybind) :
  let s' := beginCycle E Key_Count refresh s in
  aKeybind s' = aKeybind s ∧ aKeybindSize s' = aKeybindSize s ∧
  aPrimaryKeyState s' = aPrimaryKeyState s ∧
  aEventOccurred s' = fill false (aEventOccurred s) ∧
  length (aKey s') = length (aKey s) ∧
  length (aUsedAsModifier s') = length (aUsedAsModifier s) ∧
  (∀ i, aKey s' !!! i =
        if decide (i < Key_Count ∧ i < length (aKey s))
        then refresh i (aKey s !!! i) else aKey s !!! i) ∧
  (∀ i, aUsedAsModifier s' !!! i =
        if decide (i < Key_Count ∧ i < length (aUsedAsModifier s))
        then (if isNeutral E (aKey s' !!! i) then false
              else aUsedAsModifier s !!! i)
        else aUsedAsModifier s !!! i).
Proof.
  unfold beginCycle.
  exact (refresh_fold_spec refresh Key_Count
           (with_aEventOccurred (fill false) s)).
Qed.


(** *** The representation invariant is kept *)

Lemma wf_transfer (s s' : IKeybind) :
  wf Key_Count Event_Count Keybind_Max s →
  length (aKey s') = length (aKey s) →
  aKeybind s' = aKeybind s → aKeybindSize s' = aKeybindSize s →
  length (aPrimaryKeyState s') = length (aPrimaryKeyState s) →
  length (aEventOccurred s') = length (aEventOccurred s) →
  length (aUsedAsModifier s') = length (aUsedAsModifier s) →
  wf Key_Count Event_Count Keybind_Max s'.
Proof.
  intros [] HK HB HS HP HE HU. unfold keyAt in *.
  constructor; unfold keyAt; rewrite ?HK, ?HB, ?HS, ?HP, ?HE, ?HU; done.
Qed.

Lemma wf_beginCycle (refresh : nat → Key → Key) (s : IKeybind) :
  wf Key_Count Event_Count Keybind_Max s →
  wf Key_Count Event_Count Keybind_Max (beginCycle E Key_Count refresh s).
Proof.
  intros Hwf.
  destruct (beginCycle_spec refresh s)
    as (HB & HS & HP & HE & HLK & HLU & _ & _).
  apply (wf_transfer s); try done; try congruence.
  by rewrite HE, length_fill.
Qed.

Lemma wf_searchKeybind (s : IKeybind) :
  wf Key_Count Event_Count Keybind_Max s →
  wf Key_Count Event_Count Keybind_Max
     (searchKeybind E Key_Count Event_Count s).
Proof.
  intros Hwf.
  destruct (searchKeybind_spec s) as ((HK & HB & HS & HP) & HLE & HLU & _).
  apply (wf_transfer s); try done; congruence.
Qed.

Lemma wf_update (refresh : nat → Key → Key) (s : IKeybind) :
  wf Key_Count Event_Count Keybind_Max s →
  wf Key_Count Event_Count Keybind_Max
     (update E Key_Count Event_Count refresh s).
Proof. intros Hwf. by apply wf_searchKeybind, wf_beginCycle. Qed.

Lemma wf_construct (keys_ : list Key) :
  length keys_ = Key_Count →
  wf Key_Count Event_Count Keybind_Max
     (construct Key_Count Event_Count Keybind_Max keys_).
Proof.
  intros Hlen. constructor; simpl; try done; try apply length_replicate.
  - intros e He. rewrite lookup_total_replicate_2 by done.
    apply length_replicate.
  - intros e He. rewrite lookup_total_replicate_2 by done. lia.
  - intros e j He. rewrite lookup_total_replicate_2 by done. lia.
Qed.

Lemma wf_clear (s : IKeybind) :
  wf Key_Count Event_Count Keybind_Max s →
  wf Key_Count Event_Count Keybind_Max (clear Keybind_Max s).
Proof.
  intros []. constructor; simpl; rewrite ?length_fill; try done.
  - intros e He. rewrite lookup_total_fill by lia. apply length_replicate.
  - intros e He. rewrite lookup_total_fill by lia. lia.
  - intros e j He. rewrite lookup_total_fill by lia. lia.
Qed.

(** Re-assigning after [clear] starts from the object a constructor
    call with the same keys gives. *)
Lemma clear_is_construct (s : IKeybind) :
  wf Key_Count Event_Count Keybind_Max s →
  clear Keybind_Max s
  = construct Key_Count Event_Count Keybind_Max (aKey s).
Proof.
  intros []. unfold clear, construct, fill. congruence.
Qed.

Lemma wf_assign (e : nat) (ids : list nat) (st : Z) (s : IKeybind) :
  wf Key_Count Event_Count Keybind_Max s →
  wf Key_Count Event_Count Keybind_Max
     (state_of (assign Key_Count Event_Count Keybind_Max e ids st s)).
Proof.
  intros Hwf.
  destruct (assign_spec Key_Count Event_Count Keybind_Max e ids st s)
    as [[Hb ->]|[[He HN] (stop & s1 & Hstop & Hsome & HK & HS & HP & HE & HU
                          & HL & HR & Hat & Hout)]]; [done|].
  assert (Hentry : ∀ e' p, keyAt s1 e' p ≠ keyAt s e' p →
            e' = e ∧ length ids - stop ≤ p ∧ keyAt s1 e' p < Key_Count).
  { intros e' p. rewrite Hat.
    match goal with
    | |- (if decide ?C then _ else _) ≠ _ → _ =>
        destruct (decide C) as [Hc|Hc]; [|intros Hne; by destruct Hne]
    end.
    intros _. destruct Hc as (-> & Hp & _). split_and!; [done|lia|].
    destruct (Hsome (length ids - p - 1) ltac:(lia)) as [j Hj].
    rewrite Hj. simpl. by destruct (findKey_Some _ _ _ _ Hj). }
  assert (Hstable : ∀ e' p, e' < Event_Count →
            p < aKeybindSize s !!! e' → keyAt s1 e' p < Key_Count).
  { intros e' p He' Hp.
    destruct (decide (keyAt s1 e' p = keyAt s e' p)) as [->|Hne].
    - by apply (wf_index _ _ _ _ Hwf).
    - by destruct (Hentry e' p Hne) as (_ & _ & ?). }
  destruct Hwf as [w1 w2 w3 w4 w5 w6 w7 w8 w9].
  destruct Hout as [[-> ->]|(Hlt & Hnone & ->)]; simpl.
  - constructor; simpl; rewrite ?length_insert; try congruence.
    + intros e' He'. by rewrite HR, w3.
    + intros e' He'. rewrite HS, list_lookup_total_insert.
      destruct (decide (e = e' ∧ e < length (aKeybindSize s)));
        [lia|by apply w8].
    + intros e' j He'. rewrite HS, list_lookup_total_insert.
      change (keyAt (with_aKeybindSize _ (with_aPrimaryKeyState _ s1)) e' j)
        with (keyAt s1 e' j).
      destruct (decide (e = e' ∧ e < length (aKeybindSize s))) as [Hd|Hd];
        [|by apply Hstable].
      destruct Hd as [<- _]. intros Hj.
      rewrite Hat, decide_True.
      * destruct (Hsome (length ids - j - 1) ltac:(lia)) as [k Hk].
        rewrite Hk. simpl. by destruct (findKey_Some _ _ _ _ Hk).
      * split_and!; try done; try lia. rewrite w3 by lia. lia.
  - constructor; try congruence.
    + intros e' He'. by rewrite HR, w3.
    + intros e' He'. rewrite HS. by apply w8.
    + intros e' j He'. rewrite HS. by apply Hstable.
Qed.

(** *** What a fired flag after [update] means *)

Lemma isEvent_update (refresh : nat → Key → Key) (s : IKeybind) (e : nat) :
  wf Key_Count Event_Count Keybind_Max s →
  isEvent Event_Count (update E Key_Count Event_Count refresh s) e = true ↔
  e < Event_Count ∧
  ∃ i, i < Key_Count ∧
       firesFor (beginCycle E Key_Count refresh s)
         (searchCandidates E Key_Count Event_Count
            (beginCycle E Key_Count refresh s)) i e.
Proof.
  intros Hwf. unfold isEvent, update.
  destruct (beginCycle_spec refresh s) as (_ & _ & _ & HE & _).
  destruct (searchKeybind_spec (beginCycle E Key_Count refresh s))
    as (_ & _ & _ & _ & _ & Hev).
  destruct (Nat.leb_spec Event_Count e) as [Hge|Hlt].
  - split; [discriminate|]. intros [? _]. lia.
  - rewrite Hev, HE, length_fill, (wf_aEventOccurred _ _ _ _ Hwf).
    rewrite lookup_total_fill
      by (rewrite (wf_aEventOccurred _ _ _ _ Hwf); lia).
    split.
    + intros [?|[_ H]]; [done|]. done.
    + intros [_ H]. right. done.
Qed.

(** A slot whose fired flag is set after [update] is an assigned
    definition that was the recorded candidate of its primary key: the
    primary key did not carry the used-as-modifier flag, the sequence was
    valid and the primary key met the required state, all with respect
    to the refreshed keys. *)
Lemma isEvent_update_sound (refresh : nat → Key → Key) (s : IKeybind)
    (e : nat) :
  wf Key_Count Event_Count Keybind_Max s → Event_Count ≤ 255 →
  isEvent Event_Count (update E Key_Count Event_Count refresh s) e = true →
  let b := beginCycle E Key_Count refresh s in
  e < Event_Count ∧
  ∃ p, p < Key_Count ∧ isPrimaryOf b e p ∧
       searchCandidates E Key_Count Event_Count b !!! p = e + 1 ∧
       isUsedAsModifier b p = false ∧
       isValidSequence E b e = true ∧
       anyBit (aPrimaryKeyState b !!! e) (state (aKey b !!! p)) = true.
Proof.
  intros Hwf H255 Hev. apply (isEvent_update refresh s e Hwf) in Hev.
  destruct Hev as (He & p & Hp & Hne & Hbest & Hbit).
  split; [done|]. exists p.
  destruct (candidatesUpTo_sound _ Event_Count p H255 Hne)
    as (i & Hi & Heq & Hprim & _ & Hused & Hvalid).
  unfold searchCandidates in *. rewrite Heq in Hbest.
  assert (i = e) as -> by lia.
  split_and!; done.
Qed.


(** *** The used-as-modifier flag across [update] *)

Lemma aKey_update (refresh : nat → Key → Key) (s : IKeybind) (i : nat) :
  wf Key_Count Event_Count Keybind_Max s → i < Key_Count →
  aKey (update E Key_Count Event_Count refresh s) !!! i
  = refresh i (aKey s !!! i) ∧
  aKey (beginCycle E Key_Count refresh s) !!! i = refresh i (aKey s !!! i).
Proof.
  intros Hwf Hi.
  destruct (beginCycle_spec refresh s) as (_ & _ & _ & _ & _ & _ & HK & _).
  destruct (searchKeybind_spec (beginCycle E Key_Count refresh s))
    as ((HK' & _) & _).
  unfold update. rewrite HK', HK, decide_True; [done|].
  rewrite (wf_aKey _ _ _ _ Hwf). lia.
Qed.

Lemma sameInputs_update (refresh : nat → Key → Key) (s : IKeybind) :
  aKeybind (update E Key_Count Event_Count refresh s) = aKeybind s ∧
  aKeybindSize (update E Key_Count Event_Count refresh s) = aKeybindSize s ∧
  aPrimaryKeyState (update E Key_Count Event_Count refresh s)
  = aPrimaryKeyState s.
Proof.
  destruct (beginCycle_spec refresh s) as (HB & HS & HP & _).
  destruct (searchKeybind_spec (beginCycle E Key_Count refresh s))
    as ((_ & HB' & HS' & HP') & _).
  unfold update. split_and!; congruence.
Qed.

(** *** Sequence validation and firing *)

(** C4.  Validation of slot [e] succeeds exactly when every stored
    position from 1 up to the size holds a key whose state has the push,
    hold or delay bit and whose press time stamp is at most that of the
    key one position below, and the key at position 0 is not in state
    [none].  Hence, when some key of the chord was pressed strictly
    later than the key declared after it, the slot does not fire in
    [update], whatever the states of the keys. *)
Theorem sequence_validation (s : IKeybind) (e : nat) :
  (isValidSequence E s e = true ↔
   (∀ j, 1 ≤ j < aKeybindSize s !!! e →
      (Z.land (state (aKey s !!! keyAt s e j)) (push E) ≠ 0%Z ∨
       Z.land (state (aKey s !!! keyAt s e j)) (hold E) ≠ 0%Z ∨
       Z.land (state (aKey s !!! keyAt s e j)) (delay E) ≠ 0%Z) ∧
      (pushTime (aKey s !!! keyAt s e j)
       ≤ pushTime (aKey s !!! keyAt s e (j - 1)))%Z) ∧
   state (aKey s !!! keyAt s e 0) ≠ none E) ∧
  (∀ refresh j,
     wf Key_Count Event_Count Keybind_Max s → Event_Count ≤ 255 →
     1 ≤ j < aKeybindSize s !!! e →
     (pushTime (refresh (keyAt s e (j - 1)) (aKey s !!! keyAt s e (j - 1)))
      < pushTime (refresh (keyAt s e j) (aKey s !!! keyAt s e j)))%Z →
     isEvent Event_Count (update E Key_Count Event_Count refresh s) e
     = false).
Proof.
  split.
  - rewrite isValidSequence_true. split; intros [H Hnone]; (split; [|done]);
      intros j Hj; destruct (H j Hj) as [Hp Ht]; (split; [|done]);
      by apply isPressed_true.
  - intros refresh j Hwf H255 Hj Hlate.
    destruct (isEvent Event_Count
                (update E Key_Count Event_Count refresh s) e) eqn:Hev;
      [exfalso|done].
    destruct (isEvent_update_sound refresh s e Hwf H255 Hev)
      as (He & p & _ & _ & _ & _ & Hvalid & _).
    apply isValidSequence_true in Hvalid. destruct Hvalid as [Hseq _].
    destruct (beginCycle_spec refresh s)
      as (HB & HS & _ & _ & _ & _ & HK & _).
    assert (HkA : ∀ j, keyAt (beginCycle E Key_Count refresh s) e j
                       = keyAt s e j)
      by (intros j'; unfold keyAt; by rewrite HB).
    rewrite HS in Hseq. destruct (Hseq j Hj) as [_ Hle].
    rewrite !HkA, !HK in Hle.
    assert (Hsz : aKeybindSize s !!! e ≤ Keybind_Max)
      by (by apply (wf_size _ _ _ _ Hwf)).
    rewrite !decide_True in Hle.
    + lia.
    + rewrite (wf_aKey _ _ _ _ Hwf).
      split; apply (wf_index _ _ _ _ Hwf); try done; lia.
    + rewrite (wf_aKey _ _ _ _ Hwf).
      split; apply (wf_index _ _ _ _ Hwf); try done; lia.
Qed.

(** *** The tie-break between chords of equal length *)

(** C3.  Let the first loop of [searchKeybind] reach an assigned
    definition [i] whose primary key [p] already has a recorded
    candidate of the same chord length.  That candidate is a definition
    registered before [i] with the same primary key.  If the state of
    [p] does not meet the required primary state of [i], the table is
    left as it is; if it does, and [p] does not carry the
    used-as-modifier flag and the sequence of [i] is valid, then [i]
    replaces the recorded candidate. *)
Theorem equal_length_tie_break (s : IKeybind) (i : nat) :
  Event_Count ≤ 255 → i < Event_Count →
  let best := candidatesUpTo E Key_Count s i in
  let p := keyAt s i 0 in
  aKeybindSize s !!! i ≠ 0 →
  best !!! p ≠ 0 →
  aKeybindSize s !!! i = aKeybindSize s !!! (best !!! p - 1) →
  (best !!! p - 1 < i ∧ isPrimaryOf s (best !!! p - 1) p) ∧
  (anyBit (aPrimaryKeyState s !!! i) (state (aKey s !!! p)) = false →
   candidatesUpTo E Key_Count s (S i) = best) ∧
  (anyBit (aPrimaryKeyState s !!! i) (state (aKey s !!! p)) = true →
   isUsedAsModifier s p = false → isValidSequence E s i = true →
   candidatesUpTo E Key_Count s (S i) = <[p := i + 1]> best ∧
   candidatesUpTo E Key_Count s (S i) !!! p = i + 1).
Proof.
  intros H255 Hi best p Hsz Hbest Heq.
  destruct (candidatesUpTo_sound s i p ltac:(lia) Hbest)
    as (i0 & Hi0 & Hbest0 & Hprim & Hp & _).
  fold best in Hbest0.
  assert (Hskip : skipForLength s best i
                  = negb (anyBit (aPrimaryKeyState s !!! i)
                                 (state (aKey s !!! p)))).
  { unfold skipForLength. fold p.
    rewrite (proj2 (Nat.eqb_neq _ _) Hbest).
    rewrite (proj2 (Nat.ltb_ge _ _)) by lia.
    by rewrite (proj2 (Nat.eqb_eq _ _) Heq). }
  split_and!.
  - lia.
  - by replace (best !!! p - 1) with i0 by lia.
  - intros Hbit. rewrite candidatesUpTo_S. fold best.
    unfold candidateStep, isEmptyKeybind.
    rewrite (proj2 (Nat.eqb_neq _ _) Hsz), Hskip, Hbit. done.
  - intros Hbit Hused Hvalid. rewrite candidatesUpTo_S. fold best.
    unfold candidateStep, isEmptyKeybind.
    rewrite (proj2 (Nat.eqb_neq _ _) Hsz), Hskip, Hbit. fold p.
    rewrite Hused, Hvalid, u8_id by lia. simpl. split; [done|].
    apply list_lookup_total_insert_eq.
    unfold best. by rewrite length_candidatesUpTo.
Qed.


(** *** Exclusivity of a marked modifier *)

Lemma sameInputs_isPrimaryOf (s s' : IKeybind) (e X : nat) :
  aKeybind s' = aKeybind s → aKeybindSize s' = aKeybindSize s →
  isPrimaryOf s' e X ↔ isPrimaryOf s e X.
Proof. intros HB HS. unfold isPrimaryOf, keyAt. by rewrite HB, HS. Qed.

(** The modifiers of a slot that fires in [update] are marked. *)
Lemma marked_when_fired (refresh : nat → Key → Key) (s : IKeybind)
    (e X : nat) :
  wf Key_Count Event_Count Keybind_Max s →
  isEvent Event_Count (update E Key_Count Event_Count refresh s) e = true →
  isModifierOf s e X →
  aUsedAsModifier (update E Key_Count Event_Count refresh s) !!! X = true.
Proof.
  intros Hwf Hev Hmod.
  apply (isEvent_update refresh s e Hwf) in Hev.
  destruct Hev as (He & i & Hi & Hf).
  destruct (beginCycle_spec refresh s) as (HB & HS & _ & _ & _ & HLU & _).
  destruct (searchKeybind_spec (beginCycle E Key_Count refresh s))
    as (_ & _ & _ & _ & Hset & _).
  unfold update. apply (Hset i e X Hi Hf).
  - unfold isModifierOf, keyAt. by rewrite HB, HS.
  - rewrite HLU, (wf_aUsedAsModifier _ _ _ _ Hwf).
    destruct Hmod as (j & Hj & <-). apply (wf_index _ _ _ _ Hwf); [done|lia].
Qed.

(** One cycle with a marked key [X] that is not neutral: the mark
    stays, and no definition with primary key [X] fires. *)
Lemma marked_key_blocked (refresh : nat → Key → Key) (s : IKeybind)
    (X : nat) :
  wf Key_Count Event_Count Keybind_Max s → Event_Count ≤ 255 →
  aUsedAsModifier s !!! X = true →
  isNeutral E (aKey (update E Key_Count Event_Count refresh s) !!! X)
  = false →
  aUsedAsModifier (update E Key_Count Event_Count refresh s) !!! X = true ∧
  ∀ e, isPrimaryOf s e X →
       isEvent Event_Count (update E Key_Count Event_Count refresh s) e
       = false.
Proof.
  intros Hwf H255 Hset Hheld.
  destruct (beginCycle_spec refresh s)
    as (HB & HS & _ & _ & _ & _ & _ & HU).
  destruct (searchKeybind_spec (beginCycle E Key_Count refresh s))
    as ((HK' & _) & _ & _ & Hmono & _).
  assert (Hb : aUsedAsModifier (beginCycle E Key_Count refresh s) !!! X
               = true).
  { rewrite HU. unfold update in Hheld. rewrite HK' in Hheld.
    rewrite Hheld. by case_decide. }
  split; [by apply Hmono|].
  intros e Hprim.
  destruct (isEvent Event_Count
              (update E Key_Count Event_Count refresh s) e) eqn:Hev;
    [exfalso|done].
  destruct (isEvent_update_sound refresh s e Hwf H255 Hev)
    as (_ & p & _ & Hprim' & _ & Hused & _).
  apply (sameInputs_isPrimaryOf s) in Hprim'; [|done..].
  destruct Hprim as [_ HX], Hprim' as [_ Hp].
  unfold isUsedAsModifier in Hused. congruence.
Qed.

(** C1, as the code has it.  Let an event fire in [update] with key [X]
    among its modifiers, which marks [X].  Through any number of further
    cycles in each of which [X] reports a state that is neither [none]
    nor one with the idle bit, [X] stays marked, and in the last of them
    no definition whose primary key is [X] fires.  (Nothing is said
    about the cycle in which [X] is marked, nor about [X] as a modifier
    of other definitions.) *)
Theorem modifier_exclusivity (refresh0 : nat → Key → Key) (s0 : IKeybind)
    (e0 X : nat) (cycles : list (nat → Key → Key)) (e : nat) :
  wf Key_Count Event_Count Keybind_Max s0 → Event_Count ≤ 255 →
  let s := update E Key_Count Event_Count refresh0 s0 in
  isEvent Event_Count s e0 = true → isModifierOf s0 e0 X →
  cycles ≠ [] →
  staysHeld E Key_Count Event_Count X cycles s →
  isPrimaryOf s0 e X →
  isEvent Event_Count (runCycles E Key_Count Event_Count cycles s) e = false ∧
  aUsedAsModifier (runCycles E Key_Count Event_Count cycles s) !!! X = true.
Proof.
  intros Hwf0 H255 s Hev0 Hmod Hne Hheld Hprim0.
  assert (Hwf : wf Key_Count Event_Count Keybind_Max s)
    by (by apply wf_update).
  assert (Hset : aUsedAsModifier s !!! X = true)
    by (by eapply marked_when_fired).
  assert (Hprim : isPrimaryOf s e X).
  { destruct (sameInputs_update refresh0 s0) as (HB & HS & _).
    by apply (sameInputs_isPrimaryOf s0). }
  clearbody s. clear Hev0 Hmod Hprim0 Hwf0.
  revert s Hwf Hset Hprim Hheld Hne.
  induction cycles as [|r cycles IH]; intros s Hwf Hset Hprim Hheld Hne;
    [done|].
  simpl in *. destruct Hheld as [Hh Hrest].
  destruct (marked_key_blocked r s X Hwf H255 Hset Hh) as [Hset' Hblock].
  destruct cycles as [|r' cycles'].
  - simpl. split; [by apply Hblock|done].
  - apply IH; try done.
    + by apply wf_update.
    + destruct (sameInputs_update r s) as (HB & HS & _).
      by apply (sameInputs_isPrimaryOf s).
Qed.

(** *** Where a set flag comes from *)

Lemma foldl_mark_origin (e : nat) (js : list nat) (s : IKeybind) (k : nat) :
  aUsedAsModifier
    (foldl (λ s j, with_aUsedAsModifier (<[keyAt s e j := true]>) s) s js)
    !!! k = true →
  aUsedAsModifier s !!! k = true ∨ ∃ j, j ∈ js ∧ keyAt s e j = k.
Proof.
  revert s. induction js as [|j js IH]; intros s; simpl; [by left|].
  intros H. apply IH in H. destruct H as [H|(j' & Hj' & Hk)].
  - simpl in H. rewrite list_lookup_total_insert in H.
    destruct (decide (keyAt s e j = k ∧ keyAt s e j < length (aUsedAsModifier s)))
      as [[Hk _]|_]; [|by left].
    right. exists j. split; [apply elem_of_cons; by left|done].
  - right. exists j'. split; [apply elem_of_cons; by right|done].
Qed.

Lemma finalizeStep_origin (best : list nat) (s : IKeybind) (i k : nat) :
  aUsedAsModifier (finalizeStep best s i) !!! k = true →
  aUsedAsModifier s !!! k = true ∨
  ∃ e, firesFor s best i e ∧ isModifierOf s e k.
Proof.
  unfold finalizeStep, firesFor.
  destruct (Nat.eqb_spec (best !!! i) 0) as [H0|H0]; [by left|].
  destruct (anyBit (aPrimaryKeyState s !!! (best !!! i - 1))
                   (state (aKey s !!! i))) eqn:Hbit; simpl; [|by left].
  unfold markModifiersAsUsed. intros H. apply foldl_mark_origin in H.
  destruct H as [H|(j & Hj%elem_of_seq & Hk)]; [by left|right].
  exists (best !!! i - 1). split; [done|]. exists j. split; [lia|done].
Qed.

Lemma foldl_finalize_origin (best : list nat) (ks : list nat) (s : IKeybind)
    (k : nat) :
  aUsedAsModifier (foldl (finalizeStep best) s ks) !!! k = true →
  aUsedAsModifier s !!! k = true ∨
  ∃ i e, i ∈ ks ∧ firesFor s best i e ∧ isModifierOf s e k.
Proof.
  revert s. induction ks as [|i ks IH]; intros s; simpl; [by left|].
  destruct (finalizeStep_spec best s i) as (Hin1 & _).
  intros H. apply IH in H. destruct H as [H|(i' & e & Hi' & Hf & Hm)].
  - apply finalizeStep_origin in H. destruct H as [H|(e & Hf & Hm)];
      [by left|right].
    exists i, e. split; [apply elem_of_cons; by left|done].
  - right. exists i', e. split_and!.
    + apply elem_of_cons; by right.
    + by apply (sameInputs_firesFor _ _ _ _ _ Hin1).
    + by apply (sameInputs_isModifierOf _ _ _ _ Hin1).
Qed.

(** After [update], a key is marked exactly when the key loop left it
    marked or it is a modifier of a slot that fired in this cycle. *)
Lemma used_flag_after_update (refresh : nat → Key → Key) (s : IKeybind)
    (k : nat) :
  wf Key_Count Event_Count Keybind_Max s → Event_Count ≤ 255 →
  k < Key_Count →
  aUsedAsModifier (update E Key_Count Event_Count refresh s) !!! k = true ↔
  aUsedAsModifier (beginCycle E Key_Count refresh s) !!! k = true ∨
  ∃ e, isEvent Event_Count (update E Key_Count Event_Count refresh s) e
       = true ∧ isModifierOf s e k.
Proof.
  intros Hwf H255 Hk.
  destruct (beginCycle_spec refresh s) as (HB & HS & _ & _ & _ & HLU & _).
  destruct (searchKeybind_spec (beginCycle E Key_Count refresh s))
    as (_ & _ & _ & Hmono & _).
  assert (Hmod : ∀ e, isModifierOf (beginCycle E Key_Count refresh s) e k
                      ↔ isModifierOf s e k)
    by (intros e; unfold isModifierOf, keyAt; by rewrite HB, HS).
  split.
  - intros H. unfold update, searchKeybind in H.
    apply foldl_finalize_origin in H.
    destruct H as [H|(i & e & Hi%elem_of_seq & Hf & Hm)]; [by left|right].
    exists e. split; [|by apply Hmod].
    apply (isEvent_update refresh s e Hwf).
    destruct Hf as (Hne & Hbest & Hbit).
    destruct (candidatesUpTo_sound _ Event_Count i H255 Hne)
      as (e' & He' & Heq & _).
    split; [unfold searchCandidates in Hbest; lia|].
    exists i. split; [lia|done].
  - intros [H|(e & Hev & Hm)]; [by apply Hmono|].
    by apply (marked_when_fired refresh s e k Hwf).
Qed.

End Resolver.

(** ** The scenarios *)

Lemma wf_Scenario_registered : wf 3 2 2 Scenario.registered.
Proof. unfold Scenario.registered. do 2 apply wf_assign. by apply wf_construct. Qed.

Lemma wf_SharedModifier_registered : wf 3 2 2 SharedModifier.registered.
Proof.
  unfold SharedModifier.registered. do 2 apply wf_assign.
  by apply wf_construct.
Qed.

Lemma wf_ThreeChords_registered : wf 3 3 3 ThreeChords.registered.
Proof.
  unfold ThreeChords.registered. do 3 apply wf_assign. by apply wf_construct.
Qed.

Lemma wf_MarkedPrimary_registered : wf 3 3 2 MarkedPrimary.registered.
Proof.
  unfold MarkedPrimary.registered. do 3 apply wf_assign.
  by apply wf_construct.
Qed.

Lemma wf_EqualLength_registered : wf 3 2 2 EqualLength.registered.
Proof.
  unfold EqualLength.registered. do 2 apply wf_assign. by apply wf_construct.
Qed.

Example scenario_registered :
  Scenario.registered =
  mkIKeybind Scenario.keys0 [[1; 0]; [1; 0]] [2; 1] [2%Z; 2%Z]
             [false; false] [false; false; false].
Proof. reflexivity. Qed.

Example scenario_after :
  aEventOccurred Scenario.after = [true; false] ∧
  aUsedAsModifier Scenario.after = [true; false; false].
Proof. split; reflexivity. Qed.

(** With key 20 pressed before key 10, the chord [10, 20] of the first
    scenario does not fire although both keys are active; the one-key
    chord [20] does. *)
Example scenario_reverse_order :
  aEventOccurred (update bitflags 3 2 ReverseOrder.press Scenario.registered)
  = [false; true].
Proof. reflexivity. Qed.

(** In the cycle in which key 10 is first marked as the modifier of the
    chord [10, 20], the one-key chord [10] fires as well: the candidates
    are fixed before any key is marked.  From the next cycle on, with key
    10 still held, the one-key chord is blocked. *)
Example scenario_modifier_as_primary :
  aEventOccurred
    (update bitflags 3 2 Scenario.press ModifierAsPrimary.registered)
  = [true; true] ∧
  aEventOccurred
    (update bitflags 3 2 SharedModifier.cycle2
       (update bitflags 3 2 Scenario.press ModifierAsPrimary.registered))
  = [false; false].
Proof. split; reflexivity. Qed.

(** ** Exclusivity *)

(** The sentence of the specification about exclusivity fails for a key
    that is a modifier of two chords: slot 0, the chord [10, 20], fires in
    the first cycle and marks key 10; in the next cycle key 10 is still
    held and slot 1, the chord [10, 30], fires with key 10 as its
    modifier. *)
Lemma exclusivity_counterexample :
  ¬ exclusivity_as_stated bitflags 3 2 SharedModifier.registered
      SharedModifier.cycle1 SharedModifier.cycle2.
Proof.
  intros H.
  assert (Hquiet :
    isEvent 2 (update bitflags 3 2 SharedModifier.cycle2
                 (update bitflags 3 2 SharedModifier.cycle1
                    SharedModifier.registered)) 1 = false).
  { refine (proj2 (H 0 0 1 _ _ _ _ _)); clear H.
    - reflexivity.
    - exists 1. vm_compute. split; [lia|reflexivity].
    - reflexivity.
    - lia.
    - right. exists 1. vm_compute. split; [lia|reflexivity]. }
  clear H. vm_compute in Hquiet. discriminate.
Qed.

Lemma modifier_exclusivity_witness :
  wf 3 3 2 MarkedPrimary.registered ∧
  isEvent 3 MarkedPrimary.afterCycle1 2 = true ∧
  isModifierOf MarkedPrimary.registered 2 1 ∧
  isEvent 3 (runCycles bitflags 3 3 [MarkedPrimary.cycle2]
               MarkedPrimary.afterCycle1) 0 = false ∧
  aUsedAsModifier (runCycles bitflags 3 3 [MarkedPrimary.cycle2]
                     MarkedPrimary.afterCycle1) !!! 1 = true.
Proof.
  assert (Hmod : isModifierOf MarkedPrimary.registered 2 1)
    by (exists 1; vm_compute; split; [lia|reflexivity]).
  split; [exact wf_MarkedPrimary_registered|].
  split; [reflexivity|]. split; [exact Hmod|].
  apply (modifier_exclusivity bitflags 3 3 2 MarkedPrimary.cycle1
           MarkedPrimary.registered 2 1 [MarkedPrimary.cycle2] 0).
  - exact wf_MarkedPrimary_registered.
  - lia.
  - reflexivity.
  - exact Hmod.
  - discriminate.
  - split; [reflexivity|exact I].
  - vm_compute. split; [lia|reflexivity].
Defined.

(** ** Witnesses of the remaining statements *)

Lemma isEvent_total_witness :
  length (aEventOccurred Scenario.after) = 2 ∧
  isEvent 2 Scenario.after 7 = false ∧
  isEvent 2 Scenario.after 0 = aEventOccurred Scenario.after !!! 0 ∧
  isAnyEvent Scenario.after = true.
Proof.
  split; [reflexivity|].
  destruct (isEvent_total 2 Scenario.after eq_refl) as (Hout & Hin & _ & Hany).
  split; [apply Hout; lia|]. split; [apply Hin; lia|].
  apply Hany. exists 0. reflexivity.
Defined.

Lemma assign_stores_reversed_witness :
  wf 3 2 2 (construct 3 2 2 Scenario.keys0) ∧
  keyAt (state_of (assign 3 2 2 0 [10; 20] (push bitflags)
                     (construct 3 2 2 Scenario.keys0))) 0 0 = 1 ∧
  aKeybindSize (state_of (assign 3 2 2 0 [10; 20] (push bitflags)
                            (construct 3 2 2 Scenario.keys0))) !!! 0 = 2.
Proof.
  assert (Hwf : wf 3 2 2 (construct 3 2 2 Scenario.keys0))
    by (by apply wf_construct).
  split; [exact Hwf|].
  destruct (assign_stores_reversed 3 2 2 (construct 3 2 2 Scenario.keys0)
              (state_of (assign 3 2 2 0 [10; 20] (push bitflags)
                           (construct 3 2 2 Scenario.keys0)))
              0 [10; 20] (push bitflags) Hwf eq_refl)
    as (Hpos & _ & Hsize & _).
  split; [|exact Hsize].
  destruct (Hpos 0 ltac:(simpl; lia)) as (Hfind & _).
  assert (Hf : findKey 3 (construct 3 2 2 Scenario.keys0) 20 = Some 1)
    by reflexivity.
  exact (f_equal (default 0) (eq_trans (eq_sym Hfind) Hf)).
Defined.

Lemma assign_invalid_argument_frame_witness :
  let s := state_of (assign 3 2 3 0 [10; 20] (push bitflags)
                       (construct 3 2 3 Scenario.keys0)) in
  let s' := state_of (assign 3 2 3 0 [30; 99; 20] (hold bitflags) s) in
  assign 3 2 3 0 [30; 99; 20] (hold bitflags) s = Throw invalid_argument s' ∧
  aKeybind s = [[1; 0; 0]; [0; 0; 0]] ∧
  aKeybind s' = [[1; 0; 2]; [0; 0; 0]] ∧
  aKeybindSize s' !!! 0 = 2 ∧
  aPrimaryKeyState s' = aPrimaryKeyState s.
Proof.
  intros s s'.
  split; [reflexivity|]. split; [reflexivity|]. split; [reflexivity|].
  destruct (assign_invalid_argument_frame 3 2 3 s s' 0 [30; 99; 20]
              (hold bitflags) eq_refl)
    as (_ & HP & _ & _ & _ & _ & Hsize).
  split; [|exact HP]. apply (Hsize 2); [lia|reflexivity].
Defined.

Lemma sequence_validation_witness :
  wf 3 2 2 Scenario.registered ∧
  isPressed bitflags (ReverseOrder.press 0 (aKey Scenario.registered !!! 0))
  = true ∧
  isPressed bitflags (ReverseOrder.press 1 (aKey Scenario.registered !!! 1))
  = true ∧
  isEvent 2 (update bitflags 3 2 ReverseOrder.press Scenario.registered) 0
  = false.
Proof.
  split; [exact wf_Scenario_registered|].
  split; [reflexivity|]. split; [reflexivity|].
  apply (proj2 (sequence_validation bitflags 3 2 2 Scenario.registered 0)
           ReverseOrder.press 1).
  - exact wf_Scenario_registered.
  - lia.
  - vm_compute. lia.
  - vm_compute. reflexivity.
Defined.

Lemma equal_length_tie_break_witness :
  candidatesUpTo bitflags 3 EqualLength.refreshed 1 = [0; 1; 0] ∧
  candidatesUpTo bitflags 3 EqualLength.refreshed 2 = [0; 2; 0] ∧
  aEventOccurred (update bitflags 3 2 EqualLength.press EqualLength.registered)
  = [false; true].
Proof.
  split; [reflexivity|]. split; [|reflexivity].
  destruct (equal_length_tie_break bitflags 3 2 EqualLength.refreshed 1)
    as (_ & _ & Hreplace).
  - lia.
  - lia.
  - vm_compute. lia.
  - vm_compute. lia.
  - reflexivity.
  - destruct Hreplace as [Heq _]; [reflexivity..|].
    rewrite Heq. reflexivity.
Defined.

(** * Further properties of the operations *)

Section Firing.

Variable E : eStateValues.
Variables Key_Count Event_Count Keybind_Max : nat.

(** A valid definition [k] on an unmarked primary key [p] ends the first
    loop of [searchKeybind] as the recorded candidate of [p] when every
    other valid definition on [p] is shorter, or as long and registered
    earlier while the state of [p] meets the required state of [k], or as
    long and registered later with a required state that [p] does not
    meet. *)
Lemma winner_is_candidate (b : IKeybind) (k p n : nat) :
  wf Key_Count Event_Count Keybind_Max b → Event_Count ≤ 255 →
  k < Event_Count → isPrimaryOf b k p →
  isValidSequence E b k = true → isUsedAsModifier b p = false →
  (∀ m, m < Event_Count → m ≠ k → isPrimaryOf b m p →
        isValidSequence E b m = true →
        aKeybindSize b !!! m < aKeybindSize b !!! k ∨
        (aKeybindSize b !!! m = aKeybindSize b !!! k ∧ m < k ∧
         anyBit (aPrimaryKeyState b !!! k) (state (aKey b !!! p)) = true) ∨
        (aKeybindSize b !!! m = aKeybindSize b !!! k ∧ k < m ∧
         anyBit (aPrimaryKeyState b !!! m) (state (aKey b !!! p)) = false)) →
  k < n → n ≤ Event_Count →
  candidatesUpTo E Key_Count b n !!! p = k + 1.
Proof.
  intros Hwf H255 Hk [Hsz Hp] Hvalid Hused Hcomp.
  assert (HpK : p < Key_Count).
  { rewrite <- Hp. apply (wf_index _ _ _ _ Hwf); [done|lia]. }
  induction n as [|n IH]; intros Hkn Hn; [lia|].
  rewrite candidatesUpTo_S.
  pose proof (length_candidatesUpTo E Key_Count b n) as Hlen.
  destruct (decide (n = k)) as [->|Hnk].
  - (* definition [k] itself *)
    assert (Hskip : skipForLength b (candidatesUpTo E Key_Count b k) k = false).
    { unfold skipForLength. rewrite Hp.
      destruct (Nat.eqb_spec (candidatesUpTo E Key_Count b k !!! p) 0)
        as [|Hne]; [done|].
      destruct (candidatesUpTo_sound E Key_Count b k p ltac:(lia) Hne)
        as (m & Hm & -> & Hprim & _ & _ & Hvm).
      replace (m + 1 - 1) with m by lia.
      destruct (Hcomp m ltac:(lia) ltac:(lia) Hprim Hvm)
        as [Hlt|[(Heq & _ & Hbit)|(_ & Hgt & _)]]; [| |lia].
      - rewrite (proj2 (Nat.ltb_ge _ _)) by lia.
        by rewrite (proj2 (Nat.eqb_neq _ _)) by lia.
      - rewrite (proj2 (Nat.ltb_ge _ _)) by lia.
        rewrite (proj2 (Nat.eqb_eq _ _)) by lia. by rewrite Hbit. }
    unfold candidateStep, isEmptyKeybind.
    rewrite (proj2 (Nat.eqb_neq _ _) Hsz), Hskip, Hp, Hused, Hvalid.
    simpl. rewrite u8_id by lia.
    apply list_lookup_total_insert_eq. lia.
  - specialize (IH ltac:(lia) ltac:(lia)).
    destruct (candidateStep_cases E b (candidatesUpTo E Key_Count b n) n
                ltac:(lia)) as [->|(-> & Hszn & Hskip & _ & Hvn)]; [done|].
    destruct (decide (keyAt b n 0 = p)) as [Hnp|Hnp];
      [|by rewrite list_lookup_total_insert_ne].
    exfalso. unfold skipForLength in Hskip. rewrite Hnp, IH in Hskip.
    replace (k + 1 - 1) with k in Hskip by lia.
    destruct (Nat.eqb_spec (k + 1) 0); [lia|].
    destruct (Hcomp n ltac:(lia) Hnk ltac:(by split) Hvn)
      as [Hlt|[(_ & Hlt & _)|(Heq & _ & Hbit)]]; [|lia|].
    + by rewrite (proj2 (Nat.ltb_lt _ _) Hlt) in Hskip.
    + rewrite (proj2 (Nat.ltb_ge _ _)) in Hskip by lia.
      rewrite (proj2 (Nat.eqb_eq _ _)) in Hskip by lia.
      by rewrite Hbit in Hskip.
Qed.

(** The definitions and the refreshed keys as [searchKeybind] sees them. *)
Lemma beginCycle_view (refresh : nat → Key → Key) (s : IKeybind) :
  wf Key_Count Event_Count Keybind_Max s →
  let b := beginCycle E Key_Count refresh s in
  aKeybindSize b = aKeybindSize s ∧ aPrimaryKeyState b = aPrimaryKeyState s ∧
  (∀ e j, keyAt b e j = keyAt s e j) ∧
  (∀ e X, isPrimaryOf b e X ↔ isPrimaryOf s e X) ∧
  (∀ i, i < Key_Count → aKey b !!! i = refresh i (aKey s !!! i)) ∧
  (∀ e, isValidSequence E b e = true ↔
     (∀ j, 1 ≤ j < aKeybindSize s !!! e →
        isPressed E (refresh (keyAt s e j) (aKey s !!! keyAt s e j)) = true ∧
        (pushTime (refresh (keyAt s e j) (aKey s !!! keyAt s e j))
         ≤ pushTime (refresh (keyAt s e (j - 1))
                       (aKey s !!! keyAt s e (j - 1))))%Z) ∧
     state (aKey b !!! keyAt s e 0) ≠ none E).
Proof.
  intros Hwf b.
  destruct (beginCycle_spec E Key_Count refresh s)
    as (HB & HS & HP & _ & _ & _ & HK & _). fold b in HB, HS, HP, HK.
  assert (HkA : ∀ e j, keyAt b e j = keyAt s e j)
    by (intros; unfold keyAt; by rewrite HB).
  assert (HKi : ∀ i, i < Key_Count → aKey b !!! i = refresh i (aKey s !!! i)).
  { intros i Hi. rewrite HK, decide_True; [done|].
    rewrite (wf_aKey _ _ _ _ Hwf). lia. }
  split_and!; try done.
  - intros e X. by apply sameInputs_isPrimaryOf.
  - intros e. rewrite isValidSequence_true, HS, HkA.
    destruct (decide (aKeybindSize s !!! e ≤ 1)) as [Hle|Hgt].
    { split; intros [_ Hn]; (split; [intros j Hj; lia|done]). }
    assert (He : e < Event_Count).
    { destruct (decide (e < Event_Count)) as [|Hge]; [done|].
      rewrite list_lookup_total_alt, lookup_ge_None_2 in Hgt; [simpl in Hgt; lia|].
      rewrite (wf_aKeybindSize _ _ _ _ Hwf). lia. }
    split; intros [Hseq Hn]; (split; [|done]); intros j Hj;
      specialize (Hseq j Hj); rewrite !HkA in *;
      rewrite !HKi in * by (apply (wf_index _ _ _ _ Hwf); [done|lia]); done.
Qed.

(** The general part of C2, as the code has it: beside the conditions
    the specification lists, the shared primary key must not carry the
    used-as-modifier flag, and every further definition on that key whose
    chord is complete must be shorter than the longer of the two, or as
    long and either registered earlier or asking for a state the key does
    not have. *)
Lemma longest_match_general (refresh : nat → Key → Key) (s : IKeybind)
    (i k p : nat) :
  wf Key_Count Event_Count Keybind_Max s → Event_Count ≤ 255 →
  let b := beginCycle E Key_Count refresh s in
  i < Event_Count → k < Event_Count →
  isPrimaryOf s i p → isPrimaryOf s k p →
  aKeybindSize s !!! i < aKeybindSize s !!! k →
  chordPressed E b i → chordPressed E b k →
  isValidSequence E b i = true → isValidSequence E b k = true →
  anyBit (aPrimaryKeyState s !!! i) (state (aKey b !!! p)) = true →
  anyBit (aPrimaryKeyState s !!! k) (state (aKey b !!! p)) = true →
  isUsedAsModifier b p = false →
  (∀ m, m < Event_Count → m ≠ k → isPrimaryOf s m p →
        isValidSequence E b m = true →
        aKeybindSize s !!! m < aKeybindSize s !!! k ∨
        (aKeybindSize s !!! m = aKeybindSize s !!! k ∧
         (m < k ∨
          anyBit (aPrimaryKeyState s !!! m) (state (aKey b !!! p)) = false))) →
  isEvent Event_Count (update E Key_Count Event_Count refresh s) k = true ∧
  isEvent Event_Count (update E Key_Count Event_Count refresh s) i = false.
Proof.
  intros Hwf H255 b Hi Hk Hpi Hpk Hlt _ _ _ Hvalid _ Hbit Hused Hcomp.
  destruct (beginCycle_view refresh s Hwf) as (HS & HP & HkA & HpO & _).
  fold b in HS, HP, HkA, HpO.
  assert (Hwfb : wf Key_Count Event_Count Keybind_Max b)
    by (by apply wf_beginCycle).
  assert (Hbest : searchCandidates E Key_Count Event_Count b !!! p = k + 1).
  { unfold searchCandidates.
    apply (winner_is_candidate b k p Event_Count); try done; try lia.
    - by apply HpO.
    - intros m Hm Hmk Hpm Hvm. rewrite HS, HP.
      destruct (Hcomp m Hm Hmk ltac:(by apply HpO) Hvm)
        as [Hshort|[Heq [Hearly|Hunmet]]].
      + by left.
      + right; left. done.
      + destruct (decide (m < k)); [right; left; done|].
        right; right. split_and!; [done|lia|done]. }
  assert (HpK : p < Key_Count).
  { destruct Hpk as [Hsz <-]. apply (wf_index _ _ _ _ Hwf); [done|lia]. }
  split.
  - apply (isEvent_update E Key_Count Event_Count Keybind_Max refresh s k Hwf).
    split; [done|]. exists p. split; [done|]. fold b. unfold firesFor.
    rewrite Hbest, HP. split_and!; [lia|lia|done].
  - destruct (isEvent Event_Count
                (update E Key_Count Event_Count refresh s) i) eqn:Hev;
      [exfalso|done].
    destruct (isEvent_update_sound E Key_Count Event_Count Keybind_Max
                refresh s i Hwf H255 Hev)
      as (_ & p' & _ & Hprim' & Hbest' & _).
    fold b in Hprim', Hbest'. apply HpO in Hprim'.
    destruct Hprim' as [_ Hp'], Hpi as [_ Hp].
    assert (p' = p) as -> by congruence.
    assert (i = k) as -> by lia. lia.
Qed.

(** C9, as the code has it.  After [update], for every key index [i]:
    when the refreshed state of the key is [none] or has the idle bit, the
    flag it carried is cleared, and the key ends the cycle marked only if
    it is a modifier of a slot that fired in this very [update], which a
    key without the push, hold and delay bits never is; in every other
    state the flag is not cleared: the key is marked exactly when it was
    marked after the previous cycle or it is a modifier of a slot that
    fired in this [update], so that apart from such a new mark the value
    is carried over unchanged, and a set flag persists while the key stays
    active. *)
Theorem used_flag_decay (refresh : nat → Key → Key) (s : IKeybind)
    (i : nat) :
  wf Key_Count Event_Count Keybind_Max s → Event_Count ≤ 255 →
  i < Key_Count →
  let s' := update E Key_Count Event_Count refresh s in
  let k' := aKey s' !!! i in
  let neutral := state k' = none E ∨ Z.land (state k') (idle E) ≠ 0%Z in
  let marked := ∃ e, isEvent Event_Count s' e = true ∧ isModifierOf s e i in
  k' = refresh i (aKey s !!! i) ∧
  (neutral → (aUsedAsModifier s' !!! i = true ↔ marked)) ∧
  (neutral → isPressed E k' = false → aUsedAsModifier s' !!! i = false) ∧
  (¬ neutral →
   (aUsedAsModifier s' !!! i = true ↔
    aUsedAsModifier s !!! i = true ∨ marked)) ∧
  (¬ neutral → ¬ marked →
   aUsedAsModifier s' !!! i = aUsedAsModifier s !!! i).
Proof.
  intros Hwf H255 Hi s' k' neutral marked.
  destruct (aKey_update E Key_Count Event_Count Keybind_Max refresh s i Hwf Hi)
    as [Hk' Hkb]. fold s' in Hk'. fold k' in Hk'.
  pose proof (used_flag_after_update E Key_Count Event_Count Keybind_Max
                refresh s i Hwf H255 Hi) as Hrule.
  fold s' in Hrule. fold marked in Hrule.
  destruct (beginCycle_spec E Key_Count refresh s)
    as (_ & _ & _ & _ & _ & _ & _ & HU).
  specialize (HU i). rewrite decide_True in HU
    by (rewrite (wf_aUsedAsModifier _ _ _ _ Hwf); lia).
  rewrite Hkb, <- Hk' in HU.
  assert (Hn : isNeutral E k' = true ↔ neutral) by apply isNeutral_true.
  assert (Hclear : neutral → (aUsedAsModifier s' !!! i = true ↔ marked)).
  { intros Hneutral. apply Hn in Hneutral. rewrite Hneutral in HU.
    rewrite Hrule, HU. split; [intros [?|?]; done|by right]. }
  assert (Hkeep : ¬ neutral →
            (aUsedAsModifier s' !!! i = true ↔
             aUsedAsModifier s !!! i = true ∨ marked)).
  { intros Hheld. rewrite <- Hn in Hheld. apply not_true_is_false in Hheld.
    rewrite Hheld in HU. by rewrite Hrule, HU. }
  split_and!; try done.
  - intros Hneutral Hup. pose proof (Hclear Hneutral) as Hc.
    destruct (aUsedAsModifier s' !!! i); [exfalso|done].
    destruct (proj1 Hc eq_refl) as (e & Hev & Hmod).
    destruct (isEvent_update_sound E Key_Count Event_Count Keybind_Max
                refresh s e Hwf H255 Hev)
      as (He & _ & _ & _ & _ & _ & Hvalid & _).
    destruct (beginCycle_view refresh s Hwf) as (_ & _ & _ & _ & _ & Hval).
    apply Hval in Hvalid. destruct Hvalid as [Hseq _].
    destruct Hmod as (j & Hj & Hat). destruct (Hseq j Hj) as [Hpr _].
    rewrite Hat, <- Hk' in Hpr. congruence.
  - intros Hheld Hnot. apply Hkeep in Hheld.
    destruct (aUsedAsModifier s' !!! i), (aUsedAsModifier s !!! i);
      try done.
    + destruct (proj1 Hheld eq_refl) as [?|?]; done.
    + apply (proj2 Hheld). by left.
Qed.

(** X2.  A slot that is not assigned (recorded size 0) is never reported
    as fired after [update], whatever the keys do. *)
Theorem unassigned_never_fires (refresh : nat → Key → Key) (s : IKeybind)
    (e : nat) :
  wf Key_Count Event_Count Keybind_Max s → Event_Count ≤ 255 →
  aKeybindSize s !!! e = 0 →
  isEvent Event_Count (update E Key_Count Event_Count refresh s) e = false.
Proof.
  intros Hwf H255 Hempty.
  destruct (isEvent Event_Count
              (update E Key_Count Event_Count refresh s) e) eqn:Hev;
    [exfalso|done].
  destruct (isEvent_update_sound E Key_Count Event_Count Keybind_Max
              refresh s e Hwf H255 Hev) as (_ & p & _ & [Hsz _] & _).
  destruct (beginCycle_view refresh s Hwf) as (HS & _).
  rewrite HS in Hsz. done.
Qed.

(** X3.  In one [update] at most one slot fires per primary key: two fired
    slots with the same key at stored position 0 are the same slot. *)
Theorem one_event_per_primary (refresh : nat → Key → Key) (s : IKeybind)
    (e1 e2 : nat) :
  wf Key_Count Event_Count Keybind_Max s → Event_Count ≤ 255 →
  isEvent Event_Count (update E Key_Count Event_Count refresh s) e1 = true →
  isEvent Event_Count (update E Key_Count Event_Count refresh s) e2 = true →
  keyAt s e1 0 = keyAt s e2 0 →
  e1 = e2.
Proof.
  intros Hwf H255 Hev1 Hev2 Hsame.
  destruct (isEvent_update_sound E Key_Count Event_Count Keybind_Max
              refresh s e1 Hwf H255 Hev1) as (_ & p1 & _ & [_ Hp1] & Hb1 & _).
  destruct (isEvent_update_sound E Key_Count Event_Count Keybind_Max
              refresh s e2 Hwf H255 Hev2) as (_ & p2 & _ & [_ Hp2] & Hb2 & _).
  destruct (beginCycle_view refresh s Hwf) as (_ & _ & HkA & _).
  rewrite HkA in Hp1, Hp2.
  assert (p1 = p2) as -> by congruence.
  rewrite Hb1 in Hb2. lia.
Qed.

(** X4.  A slot reported as fired after [update] is an assigned slot
    within the capacity whose chord was complete on the refreshed keys:
    its primary key is a managed key that did not carry the
    used-as-modifier flag when resolution started (it was not marked
    before, or it was refreshed to a neutral state), the state of the
    primary key is not [none] and shares a bit with the required state,
    and every modifier is pressed (push, hold or delay bit) with a press
    time stamp not later than that of the key stored one position
    below. *)
Theorem fired_event_sound (refresh : nat → Key → Key) (s : IKeybind)
    (e : nat) :
  wf Key_Count Event_Count Keybind_Max s → Event_Count ≤ 255 →
  isEvent Event_Count (update E Key_Count Event_Count refresh s) e = true →
  let p := keyAt s e 0 in
  let key j := refresh (keyAt s e j) (aKey s !!! keyAt s e j) in
  e < Event_Count ∧ aKeybindSize s !!! e ≠ 0 ∧ p < Key_Count ∧
  (aUsedAsModifier s !!! p = false ∨ isNeutral E (key 0) = true) ∧
  state (key 0) ≠ none E ∧
  Z.land (aPrimaryKeyState s !!! e) (state (key 0)) ≠ 0%Z ∧
  ∀ j, 1 ≤ j < aKeybindSize s !!! e →
       isPressed E (key j) = true ∧
       (pushTime (key j) ≤ pushTime (key (j - 1)%nat))%Z.
Proof.
  intros Hwf H255 Hev p key.
  destruct (isEvent_update_sound E Key_Count Event_Count Keybind_Max
              refresh s e Hwf H255 Hev)
    as (He & p' & Hp' & [Hsz Hprim] & _ & Hused & Hvalid & Hbit).
  destruct (beginCycle_view refresh s Hwf)
    as (HS & HP & HkA & _ & HKi & Hval).
  destruct (beginCycle_spec E Key_Count refresh s)
    as (_ & _ & _ & _ & _ & _ & _ & HU).
  rewrite HkA in Hprim. fold p in Hprim. subst p'.
  rewrite HS in Hsz. rewrite HP, HKi in Hbit by done.
  apply Hval in Hvalid. destruct Hvalid as [Hseq Hnone].
  fold p in Hnone. rewrite HKi in Hnone by done.
  split_and!; try done.
  - unfold isUsedAsModifier in Hused. rewrite HU, HKi in Hused by done.
    rewrite decide_True in Hused
      by (rewrite (wf_aUsedAsModifier _ _ _ _ Hwf); lia).
    unfold key. fold p.
    destruct (isNeutral E (refresh p (aKey s !!! p))); [by right|by left].
  - by apply anyBit_true.
Qed.

(** X5.  Let [k] be an assigned definition on primary key [p] such that
    every other definition on [p] whose chord is complete on the refreshed
    keys is shorter, or of the same length and either registered earlier
    or asking for a state that [p] does not have.  Then [k] is reported as
    fired after [update] exactly when [p] does not carry the
    used-as-modifier flag, the chord of [k] is complete, and the state of
    [p] shares a bit with the required state of [k].  This covers a
    definition that is alone on its primary key, the longest chord, the
    later of two equally long chords, and a shorter chord whose longer
    rivals are incomplete. *)
Theorem winner_fires_iff (refresh : nat → Key → Key) (s : IKeybind)
    (k p : nat) :
  wf Key_Count Event_Count Keybind_Max s → Event_Count ≤ 255 →
  k < Event_Count → isPrimaryOf s k p →
  let b := beginCycle E Key_Count refresh s in
  (∀ m, m < Event_Count → m ≠ k → isPrimaryOf s m p →
        isValidSequence E b m = true →
        aKeybindSize s !!! m < aKeybindSize s !!! k ∨
        (aKeybindSize s !!! m = aKeybindSize s !!! k ∧
         (m < k ∨
          anyBit (aPrimaryKeyState s !!! m) (state (aKey b !!! p)) = false))) →
  isEvent Event_Count (update E Key_Count Event_Count refresh s) k = true ↔
  isUsedAsModifier b p = false ∧ isValidSequence E b k = true ∧
  anyBit (aPrimaryKeyState s !!! k) (state (aKey b !!! p)) = true.
Proof.
  intros Hwf H255 Hk Hprim b Hcomp.
  destruct (beginCycle_view refresh s Hwf) as (HS & HP & HkA & HpO & _).
  fold b in HS, HP, HkA, HpO.
  split.
  - intros Hev.
    destruct (isEvent_update_sound E Key_Count Event_Count Keybind_Max
                refresh s k Hwf H255 Hev)
      as (_ & p' & _ & [_ Hp'] & _ & Hused & Hvalid & Hbit).
    fold b in Hp', Hused, Hvalid, Hbit.
    rewrite HkA in Hp'. destruct Hprim as [_ Hp].
    assert (p' = p) as -> by congruence.
    rewrite HP in Hbit. done.
  - intros (Hused & Hvalid & Hbit).
    assert (Hwfb : wf Key_Count Event_Count Keybind_Max b)
      by (by apply wf_beginCycle).
    assert (Hbest : candidatesUpTo E Key_Count b Event_Count !!! p = k + 1).
    { apply (winner_is_candidate b k p Event_Count); try done; try lia.
      - by apply HpO.
      - intros m Hm Hmk Hpm Hvm. rewrite HS, HP.
        destruct (Hcomp m Hm Hmk ltac:(by apply HpO) Hvm)
          as [Hlt|[Heq [Hlt|Hbm]]].
        + by left.
        + right; left. done.
        + destruct (decide (m < k)); [right; left; done|].
          right; right. split_and!; [done|lia|done]. }
    apply (isEvent_update E Key_Count Event_Count Keybind_Max refresh s k Hwf).
    split; [done|]. exists p. split.
    + destruct Hprim as [Hsz <-]. apply (wf_index _ _ _ _ Hwf); [done|lia].
    + fold b. unfold firesFor, searchCandidates. rewrite Hbest, HP.
      split_and!; [lia|lia|done].
Qed.

(** X6.  A complete chord shadows the shorter chords on its primary key
    even when it cannot fire: if [k] is complete on an unmarked primary
    key [p], every other complete definition on [p] is shorter, and the
    state of [p] shares no bit with the required state of [k], then no
    definition with primary key [p] is reported as fired after [update]. *)
Theorem unmet_longest_blocks_key (refresh : nat → Key → Key) (s : IKeybind)
    (k p : nat) :
  wf Key_Count Event_Count Keybind_Max s → Event_Count ≤ 255 →
  k < Event_Count → isPrimaryOf s k p →
  let b := beginCycle E Key_Count refresh s in
  isValidSequence E b k = true → isUsedAsModifier b p = false →
  anyBit (aPrimaryKeyState s !!! k) (state (aKey b !!! p)) = false →
  (∀ m, m < Event_Count → m ≠ k → isPrimaryOf s m p →
        isValidSequence E b m = true →
        aKeybindSize s !!! m < aKeybindSize s !!! k) →
  ∀ e, isPrimaryOf s e p →
       isEvent Event_Count (update E Key_Count Event_Count refresh s) e
       = false.
Proof.
  intros Hwf H255 Hk Hprim b Hvalid Hused Hbit Hshort e He.
  destruct (beginCycle_view refresh s Hwf) as (HS & HP & HkA & HpO & _).
  fold b in HS, HP, HkA, HpO.
  assert (Hwfb : wf Key_Count Event_Count Keybind_Max b)
    by (by apply wf_beginCycle).
  assert (Hbest : candidatesUpTo E Key_Count b Event_Count !!! p = k + 1).
  { apply (winner_is_candidate b k p Event_Count); try done; try lia.
    - by apply HpO.
    - intros m Hm Hmk Hpm Hvm. left. rewrite HS.
      apply Hshort; try done. by apply HpO. }
  destruct (isEvent Event_Count
              (update E Key_Count Event_Count refresh s) e) eqn:Hev;
    [exfalso|done].
  destruct (isEvent_update_sound E Key_Count Event_Count Keybind_Max
              refresh s e Hwf H255 Hev)
    as (_ & p' & _ & [_ Hp'] & Hbest' & _ & _ & Hbit').
  fold b in Hp', Hbest', Hbit'. rewrite HkA in Hp'. destruct He as [_ Hp].
  assert (p' = p) as -> by congruence.
  unfold searchCandidates in Hbest'. rewrite Hbest in Hbest'.
  assert (e = k) as -> by lia.
  rewrite HP in Hbit'. congruence.
Qed.

(** X7.  After [update], key [k] carries the used-as-modifier flag
    exactly when it carried the flag before and was not refreshed to a
    neutral state, or it is a modifier of a slot that fired in this
    [update]. *)
Theorem used_flag_rule (refresh : nat → Key → Key) (s : IKeybind) (k : nat) :
  wf Key_Count Event_Count Keybind_Max s → Event_Count ≤ 255 →
  k < Key_Count →
  aUsedAsModifier (update E Key_Count Event_Count refresh s) !!! k = true ↔
  (aUsedAsModifier s !!! k = true ∧
   isNeutral E (refresh k (aKey s !!! k)) = false) ∨
  ∃ e, isEvent Event_Count (update E Key_Count Event_Count refresh s) e = true
       ∧ isModifierOf s e k.
Proof.
  intros Hwf H255 Hk.
  rewrite (used_flag_after_update E Key_Count Event_Count Keybind_Max
             refresh s k Hwf H255 Hk).
  destruct (beginCycle_spec E Key_Count refresh s)
    as (_ & _ & _ & _ & _ & _ & _ & HU).
  destruct (beginCycle_view refresh s Hwf) as (_ & _ & _ & _ & HKi & _).
  rewrite HU, HKi by done.
  rewrite decide_True by (rewrite (wf_aUsedAsModifier _ _ _ _ Hwf); lia).
  destruct (isNeutral E (refresh k (aKey s !!! k))); split.
  - intros [?|?]; [done|by right].
  - intros [[_ ?]|?]; [done|by right].
  - intros [?|?]; [by left|by right].
  - intros [[? _]|?]; [by left|by right].
Qed.

(** X8.  [update] never touches the registry: the stored chords, their
    sizes and the required states are the ones from before, no array
    changes its extent, and the managed keys are the old keys after the
    collaborator's refresh, each at its old storage index. *)
Theorem update_keeps_registry (refresh : nat → Key → Key) (s : IKeybind) :
  let s' := update E Key_Count Event_Count refresh s in
  aKeybind s' = aKeybind s ∧ aKeybindSize s' = aKeybindSize s ∧
  aPrimaryKeyState s' = aPrimaryKeyState s ∧
  length (aKey s') = length (aKey s) ∧
  length (aEventOccurred s') = length (aEventOccurred s) ∧
  length (aUsedAsModifier s') = length (aUsedAsModifier s) ∧
  ∀ i, aKey s' !!! i =
       if decide (i < Key_Count ∧ i < length (aKey s))
       then refresh i (aKey s !!! i) else aKey s !!! i.
Proof.
  intros s'.
  destruct (beginCycle_spec E Key_Count refresh s)
    as (HB & HS & HP & HE & HLK & HLU & HK & _).
  destruct (searchKeybind_spec E Key_Count Event_Count
              (beginCycle E Key_Count refresh s))
    as ((HK' & HB' & HS' & HP') & HLE' & HLU' & _).
  unfold s', update. split_and!; try congruence.
  - rewrite HLE', HE. apply length_fill.
  - intros i. by rewrite HK', HK.
Qed.

End Firing.

Section Registry.

Variable E : eStateValues.
Variables Key_Count Event_Count Keybind_Max : nat.

(** *** Entries beyond the recorded size *)

Lemma sameBelowSize_isValidSequence (s1 s2 : IKeybind) (e : nat) :
  sameBelowSize s1 s2 → aKeybindSize s1 !!! e ≠ 0 →
  isValidSequence E s1 e = isValidSequence E s2 e.
Proof.
  intros (HK & HS & _ & _ & _ & Hat) Hsz. unfold isValidSequence.
  rewrite <- HS.
  assert (Hfrom : ∀ n j, 1 ≤ j → j + n ≤ aKeybindSize s1 !!! e →
            isValidSequence_from E s1 e n j = isValidSequence_from E s2 e n j).
  { induction n as [|n IH]; intros j Hj Hle; cbn [isValidSequence_from].
    - by rewrite <- HK, (Hat e 0) by lia.
    - rewrite <- HK, (Hat e j), (Hat e (j - 1)) by lia.
      by rewrite IH by lia. }
  apply Hfrom; lia.
Qed.

Lemma sameBelowSize_candidateStep (s1 s2 : IKeybind) (best : list nat)
    (i : nat) :
  sameBelowSize s1 s2 →
  candidateStep E s1 best i = candidateStep E s2 best i.
Proof.
  intros Hsame. pose proof Hsame as (HK & HS & HP & _ & HU & Hat).
  unfold candidateStep, isEmptyKeybind. rewrite <- HS.
  destruct (Nat.eqb_spec (aKeybindSize s1 !!! i) 0) as [|Hsz]; [done|].
  rewrite <- (sameBelowSize_isValidSequence s1 s2 i Hsame Hsz).
  unfold skipForLength, isUsedAsModifier.
  by rewrite <- HK, <- HS, <- HP, <- HU, <- (Hat i 0) by lia.
Qed.

Lemma sameBelowSize_candidatesUpTo (s1 s2 : IKeybind) (n : nat) :
  sameBelowSize s1 s2 →
  candidatesUpTo E Key_Count s1 n = candidatesUpTo E Key_Count s2 n.
Proof.
  intros Hsame. induction n as [|n IH]; [done|].
  rewrite !candidatesUpTo_S, IH. by apply sameBelowSize_candidateStep.
Qed.

Lemma sameBelowSize_with_aUsedAsModifier (g : list bool → list bool)
    (s1 s2 : IKeybind) :
  sameBelowSize s1 s2 →
  sameBelowSize (with_aUsedAsModifier g s1) (with_aUsedAsModifier g s2).
Proof.
  intros (HK & HS & HP & HE & HU & Hat). unfold sameBelowSize; simpl.
  split_and!; try done. by rewrite HU.
Qed.

Lemma sameBelowSize_with_aEventOccurred (g : list bool → list bool)
    (s1 s2 : IKeybind) :
  sameBelowSize s1 s2 →
  sameBelowSize (with_aEventOccurred g s1) (with_aEventOccurred g s2).
Proof.
  intros (HK & HS & HP & HE & HU & Hat). unfold sameBelowSize; simpl.
  split_and!; try done. by rewrite HE.
Qed.

Lemma sameBelowSize_with_aKey (g : list Key → list Key) (s1 s2 : IKeybind) :
  sameBelowSize s1 s2 →
  sameBelowSize (with_aKey g s1) (with_aKey g s2).
Proof.
  intros (HK & HS & HP & HE & HU & Hat). unfold sameBelowSize; simpl.
  split_and!; try done. by rewrite HK.
Qed.

Lemma sameBelowSize_mark (e : nat) (js : list nat) (s1 s2 : IKeybind) :
  sameBelowSize s1 s2 →
  (∀ j, j ∈ js → j < aKeybindSize s1 !!! e) →
  sameBelowSize
    (foldl (λ s j, with_aUsedAsModifier (<[keyAt s e j := true]>) s) s1 js)
    (foldl (λ s j, with_aUsedAsModifier (<[keyAt s e j := true]>) s) s2 js).
Proof.
  revert s1 s2. induction js as [|j js IH]; intros s1 s2 Hsame Hjs; [done|].
  simpl. apply IH.
  - pose proof Hsame as (_ & _ & _ & _ & _ & Hat).
    rewrite <- (Hat e j) by (apply Hjs, elem_of_cons; by left).
    by apply sameBelowSize_with_aUsedAsModifier.
  - intros j' Hj'. simpl. apply Hjs, elem_of_cons. by right.
Qed.

Lemma sameBelowSize_finalizeStep (best : list nat) (s1 s2 : IKeybind)
    (i : nat) :
  sameBelowSize s1 s2 →
  sameBelowSize (finalizeStep best s1 i) (finalizeStep best s2 i).
Proof.
  intros Hsame. pose proof Hsame as (HK & HS & HP & _).
  unfold finalizeStep. rewrite <- HK, <- HP.
  destruct (best !!! i =? 0); [done|].
  destruct (anyBit _ _); simpl; [|done].
  apply sameBelowSize_with_aEventOccurred.
  unfold markModifiersAsUsed. rewrite <- HS.
  apply sameBelowSize_mark; [done|].
  intros j Hj%elem_of_seq. lia.
Qed.

Lemma sameBelowSize_searchKeybind (s1 s2 : IKeybind) :
  sameBelowSize s1 s2 →
  sameBelowSize (searchKeybind E Key_Count Event_Count s1)
                (searchKeybind E Key_Count Event_Count s2).
Proof.
  intros Hsame. unfold searchKeybind, searchCandidates.
  rewrite <- (sameBelowSize_candidatesUpTo s1 s2 Event_Count Hsame).
  generalize (candidatesUpTo E Key_Count s1 Event_Count) as best.
  intros best. revert s1 s2 Hsame.
  induction (seq 0 Key_Count) as [|i ks IH]; intros s1 s2 Hsame; [done|].
  simpl. by apply IH, sameBelowSize_finalizeStep.
Qed.

Lemma sameBelowSize_beginCycle (refresh : nat → Key → Key)
    (s1 s2 : IKeybind) :
  sameBelowSize s1 s2 →
  sameBelowSize (beginCycle E Key_Count refresh s1)
                (beginCycle E Key_Count refresh s2).
Proof.
  intros Hsame. unfold beginCycle.
  apply (sameBelowSize_with_aEventOccurred (fill false)) in Hsame.
  revert Hsame.
  generalize (with_aEventOccurred (fill false) s1)
             (with_aEventOccurred (fill false) s2).
  induction (seq 0 Key_Count) as [|i ks IH]; intros t1 t2 Hsame; [done|].
  simpl. apply IH. unfold refreshStep.
  pose proof (sameBelowSize_with_aKey (alter (refresh i) i) t1 t2 Hsame)
    as Hsame'.
  pose proof Hsame' as (HK' & _). cbv zeta. rewrite <- HK'.
  destruct (isNeutral E _);
    [by apply sameBelowSize_with_aUsedAsModifier|done].
Qed.

(** X9.  [update] never reads an entry of [aKeybind] at or beyond the
    recorded size of its slot: two objects that differ only in such
    entries report the same fired flags, carry the same used-as-modifier
    flags and hold the same keys after [update], and still differ only in
    such entries. *)
Theorem entries_beyond_size_unread (refresh : nat → Key → Key)
    (s1 s2 : IKeybind) :
  sameBelowSize s1 s2 →
  sameBelowSize (update E Key_Count Event_Count refresh s1)
                (update E Key_Count Event_Count refresh s2) ∧
  (∀ e, isEvent Event_Count (update E Key_Count Event_Count refresh s1) e
        = isEvent Event_Count (update E Key_Count Event_Count refresh s2) e) ∧
  isAnyEvent (update E Key_Count Event_Count refresh s1)
  = isAnyEvent (update E Key_Count Event_Count refresh s2).
Proof.
  intros Hsame.
  assert (Hafter : sameBelowSize
            (update E Key_Count Event_Count refresh s1)
            (update E Key_Count Event_Count refresh s2)).
  { unfold update. by apply sameBelowSize_searchKeybind,
      sameBelowSize_beginCycle. }
  split; [done|]. destruct Hafter as (_ & _ & _ & HE & _).
  unfold isEvent, isAnyEvent. rewrite HE. done.
Qed.

(** *** [assign] and the rest of the object *)

(** X10.  [assign] touches one slot only.  When it throws [out_of_range]
    the object is exactly as before.  When it succeeds, the keys, the
    fired flags and the used-as-modifier flags are as before, no array
    changes its extent, every other slot keeps its chord, its size and its
    required state, and in the target row the entries at positions from
    the length of the sequence on are as before. *)
Theorem assign_frame (s : IKeybind) (e : nat) (ids : list nat) (st : Z) :
  (∀ s', assign Key_Count Event_Count Keybind_Max e ids st s
         = Throw out_of_range s' → s' = s) ∧
  (∀ s', assign Key_Count Event_Count Keybind_Max e ids st s = Done s' →
     aKey s' = aKey s ∧ aEventOccurred s' = aEventOccurred s ∧
     aUsedAsModifier s' = aUsedAsModifier s ∧
     length (aKeybind s') = length (aKeybind s) ∧
     length (aKeybindSize s') = length (aKeybindSize s) ∧
     length (aPrimaryKeyState s') = length (aPrimaryKeyState s) ∧
     (∀ e', e' ≠ e →
        (∀ p, keyAt s' e' p = keyAt s e' p) ∧
        aKeybindSize s' !!! e' = aKeybindSize s !!! e' ∧
        aPrimaryKeyState s' !!! e' = aPrimaryKeyState s !!! e') ∧
     (∀ p, length ids ≤ p → keyAt s' e p = keyAt s e p)).
Proof.
  destruct (assign_spec Key_Count Event_Count Keybind_Max e ids st s)
    as [[Hb ->]|[[He HN] (stop & s1 & Hstop & Hsome & HK & HS & HP & HE & HU
                          & HL & HR & Hat & Hout)]].
  - split; [by intros s' [= <-]|]. intros s' [=].
  - destruct Hout as [[-> ->]|(Hlt & Hnone & ->)];
      (split; [by intros s' [=]|]); intros s' [=]. subst s'. simpl.
    rewrite !length_insert.
    assert (Hkeep : ∀ e' p, e' ≠ e ∨ length ids ≤ p →
              keyAt s1 e' p = keyAt s e' p).
    { intros e' p Hor. rewrite Hat.
      match goal with
      | |- (if decide ?C then _ else _) = _ =>
          destruct (decide C) as [(-> & Hp & _)|_]; [|done]
      end.
      exfalso. destruct Hor; [done|lia]. }
    split_and!; try congruence.
    + intros e' Hne. split_and!.
      * intros p. apply (Hkeep e' p). by left.
      * rewrite HS. by apply list_lookup_total_insert_ne.
      * rewrite HP. by apply list_lookup_total_insert_ne.
    + intros p Hp. apply (Hkeep e p). by right.
Qed.

(** X11.  Assigning the empty sequence to a slot within the capacity
    succeeds, whatever keys are managed, and unassigns the slot: its size
    becomes 0, its row is not written, and it is not reported as fired by
    any later [update]. *)
Theorem assign_empty_unassigns (s : IKeybind) (e : nat) (st : Z) :
  wf Key_Count Event_Count Keybind_Max s → Event_Count ≤ 255 →
  e < Event_Count →
  ∃ s', assign Key_Count Event_Count Keybind_Max e [] st s = Done s' ∧
        aKeybindSize s' !!! e = 0 ∧ aKeybind s' = aKeybind s ∧
        ∀ refresh,
          isEvent Event_Count (update E Key_Count Event_Count refresh s') e
          = false.
Proof.
  intros Hwf H255 He.
  pose proof (wf_assign Key_Count Event_Count Keybind_Max e [] st s Hwf)
    as Hwf'.
  unfold assign in *. rewrite (proj2 (Nat.leb_gt _ _) He) in *.
  simpl in *. eexists. split; [reflexivity|].
  assert (Hsz : <[e := 0]> (aKeybindSize s) !!! e = 0).
  { apply list_lookup_total_insert_eq.
    rewrite (wf_aKeybindSize _ _ _ _ Hwf). lia. }
  split_and!; try done.
  intros refresh.
  match goal with
  | |- ?ev = false => destruct ev eqn:Hev; [exfalso|done]
  end.
  destruct (isEvent_update_sound E Key_Count Event_Count Keybind_Max
              refresh _ e Hwf' H255 Hev) as (_ & p & _ & [Hne _] & _).
  destruct (beginCycle_spec E Key_Count refresh
              (with_aKeybindSize (<[e := 0]>)
                 (with_aPrimaryKeyState (<[e := st]>) s)))
    as (_ & HS & _).
  rewrite HS in Hne. simpl in Hne. done.
Qed.

(** X12.  A call of [assign] that threw [invalid_argument] does not stand
    in the way of a later assignment: if a sequence can be assigned to the
    slot of the object from before the failed call, it can be assigned
    after it, and the two resulting objects differ at most in entries of
    the index array beyond the recorded sizes, so that they report the
    same events after every [update]. *)
Theorem reassign_after_failure (s s1 s2 : IKeybind) (e : nat)
    (ids1 ids2 : list nat) (st1 st2 : Z) :
  assign Key_Count Event_Count Keybind_Max e ids1 st1 s
  = Throw invalid_argument s1 →
  assign Key_Count Event_Count Keybind_Max e ids2 st2 s = Done s2 →
  ∃ s2', assign Key_Count Event_Count Keybind_Max e ids2 st2 s1 = Done s2' ∧
         sameBelowSize s2' s2 ∧
         ∀ refresh e',
           isEvent Event_Count (update E Key_Count Event_Count refresh s2') e'
           = isEvent Event_Count (update E Key_Count Event_Count refresh s2) e'.
Proof.
  intros Hfail Hok.
  destruct (assign_spec Key_Count Event_Count Keybind_Max e ids1 st1 s)
    as [[_ Heq]|[_ (stopF & sF & _ & _ & HKF & HSF & HPF & HEF & HUF
                    & HLF & HRF & HatF & HoutF)]]; [congruence|].
  destruct HoutF as [[_ Heq]|(_ & _ & Heq)]; [congruence|].
  rewrite Hfail in Heq. injection Heq as <-.
  destruct (assign_spec Key_Count Event_Count Keybind_Max e ids2 st2 s)
    as [[_ Heq]|[Hb (stop & t & _ & Hsome & HK & HS & HP & HE & HU
                     & HL & HR & Hat & Hout)]]; [congruence|].
  destruct Hout as [[-> Heq]|(_ & _ & Heq)]; [|congruence].
  rewrite Hok in Heq. injection Heq as ->.
  assert (Hfk : ∀ kid, findKey Key_Count s1 kid = findKey Key_Count s kid)
    by (intros kid; by apply findKey_from_ext).
  destruct (assign_spec Key_Count Event_Count Keybind_Max e ids2 st2 s1)
    as [[Hb' _]|[_ (stop' & t' & Hstop' & _ & HK' & HS' & HP' & HE' & HU'
                    & HL' & HR' & Hat' & Hout')]]; [lia|].
  destruct Hout' as [[-> Heq']|(Hlt & Hnone & _)].
  2:{ exfalso. rewrite Hfk in Hnone.
      destruct (Hsome stop' Hlt) as [j Hj]. congruence. }
  eexists. split; [exact Heq'|].
  assert (Hsame : sameBelowSize
            (with_aKeybindSize (<[e := length ids2]>)
               (with_aPrimaryKeyState (<[e := st2]>) t'))
            (with_aKeybindSize (<[e := length ids2]>)
               (with_aPrimaryKeyState (<[e := st2]>) t))).
  { unfold sameBelowSize; simpl. split_and!; try congruence.
    intros e' j Hj.
    change (keyAt t' e' j = keyAt t e' j).
    rewrite Hat', Hat, HatF, HLF, HRF, Hfk.
    rewrite HS', HSF in Hj.
    match goal with
    | |- (if decide ?C then _ else if decide ?CF then _ else _)
         = (if decide ?C then _ else _) =>
        destruct (decide C) as [HC|HC]; [done|];
        destruct (decide CF) as [HCF|HCF]; [exfalso|done]
    end.
    destruct HCF as (-> & _ & Hb1 & Hb2).
    rewrite list_lookup_total_insert in Hj.
    destruct (decide (e = e ∧ e < length (aKeybindSize s))) as [_|Hd].
    - apply HC. split_and!; try done; lia.
    - rewrite list_lookup_total_alt, lookup_ge_None_2 in Hj by lia.
      simpl in Hj. lia. }
  split; [done|]. intros refresh e'.
  assert (Hafter : sameBelowSize
            (update E Key_Count Event_Count refresh
               (with_aKeybindSize (<[e := length ids2]>)
                  (with_aPrimaryKeyState (<[e := st2]>) t')))
            (update E Key_Count Event_Count refresh
               (with_aKeybindSize (<[e := length ids2]>)
                  (with_aPrimaryKeyState (<[e := st2]>) t)))).
  { unfold update. by apply sameBelowSize_searchKeybind,
      sameBelowSize_beginCycle. }
  destruct Hafter as (_ & _ & _ & HEq & _).
  unfold isEvent. by rewrite HEq.
Qed.

End Registry.

Section Surface.

Variable E : eStateValues.
Variables Key_Count Event_Count Keybind_Max : nat.

(** *** [clear] and the constructor *)

(** X13.  [clear] gives the object a constructor call with the same keys
    gives (the keys are kept as they are, pressed or not), and the next
    [update] reports no event, for no slot and through [isAnyEvent], and
    leaves no key marked. *)
Theorem clear_is_fresh_start (s : IKeybind) :
  wf Key_Count Event_Count Keybind_Max s → Event_Count ≤ 255 →
  clear Keybind_Max s = construct Key_Count Event_Count Keybind_Max (aKey s) ∧
  ∀ refresh,
    let s' := update E Key_Count Event_Count refresh (clear Keybind_Max s) in
    (∀ e, isEvent Event_Count s' e = false) ∧
    isAnyEvent s' = false ∧
    (∀ i, i < Key_Count → isUsedAsModifier s' i = false).
Proof.
  intros Hwf H255. split; [by apply clear_is_construct|].
  intros refresh s'.
  assert (Hwfc : wf Key_Count Event_Count Keybind_Max (clear Keybind_Max s))
    by (by apply wf_clear).
  assert (Hquiet : ∀ e, isEvent Event_Count s' e = false).
  { intros e. destruct (isEvent Event_Count s' e) eqn:Hev; [exfalso|done].
    destruct (isEvent_update_sound E Key_Count Event_Count Keybind_Max
                refresh _ e Hwfc H255 Hev) as (He & p & _ & [Hne _] & _).
    destruct (beginCycle_spec E Key_Count refresh (clear Keybind_Max s))
      as (_ & HS & _).
    rewrite HS in Hne. simpl in Hne.
    rewrite lookup_total_fill in Hne; [done|].
    rewrite (wf_aKeybindSize _ _ _ _ Hwf). lia. }
  split_and!.
  - exact Hquiet.
  - destruct (isAnyEvent s') eqn:Hany; [exfalso|done].
    apply anyTrue_true in Hany. destruct Hany as [e He].
    pose proof (lookup_lt_Some _ _ _ He) as Hlt.
    pose proof (wf_update E Key_Count Event_Count Keybind_Max refresh _ Hwfc)
      as Hwf'. fold s' in Hwf'.
    rewrite (wf_aEventOccurred _ _ _ _ Hwf') in Hlt.
    specialize (Hquiet e). unfold isEvent in Hquiet.
    rewrite (proj2 (Nat.leb_gt _ _) Hlt) in Hquiet.
    apply list_lookup_total_correct in He. congruence.
  - intros i Hi. unfold isUsedAsModifier.
    destruct (aUsedAsModifier s' !!! i) eqn:Hflag; [exfalso|done].
    apply (used_flag_after_update E Key_Count Event_Count Keybind_Max
             refresh _ i Hwfc H255 Hi) in Hflag.
    destruct Hflag as [Hflag|(e & Hev & _)].
    + destruct (beginCycle_spec E Key_Count refresh (clear Keybind_Max s))
        as (_ & _ & _ & _ & _ & _ & _ & HU).
      rewrite HU in Hflag. simpl in Hflag.
      rewrite lookup_total_fill in Hflag
        by (rewrite (wf_aUsedAsModifier _ _ _ _ Hwf); lia).
      by repeat case_match.
    + fold s' in Hev. by rewrite Hquiet in Hev.
Qed.

(** *** [getKey] *)

Lemma aKey_after_update (refresh : nat → Key → Key) (s : IKeybind) :
  ∀ i, aKey (update E Key_Count Event_Count refresh s) !!! i =
       if decide (i < Key_Count ∧ i < length (aKey s))
       then refresh i (aKey s !!! i) else aKey s !!! i.
Proof.
  destruct (beginCycle_spec E Key_Count refresh s)
    as (_ & _ & _ & _ & _ & _ & HK & _).
  destruct (searchKeybind_spec E Key_Count Event_Count
              (beginCycle E Key_Count refresh s)) as ((HK' & _) & _).
  intros i. unfold update. by rewrite HK', HK.
Qed.


(** X14.  [getKey] throws [out_of_range] exactly for an index that is not
    below the key capacity, and otherwise hands out the key stored at that
    index.  What the caller does to the key through the reference is read
    back by the next [getKey] of that index, while every other key, the
    registry and all flags stay as they are.  After [update] the key read
    at an index is the refreshed key. *)
Theorem getKey_spec (s : IKeybind) (i : nat) (f : Key → Key) :
  length (aKey s) = Key_Count →
  (getKey Key_Count s i = inl out_of_range ↔ Key_Count ≤ i) ∧
  (i < Key_Count → getKey Key_Count s i = inr (aKey s !!! i)) ∧
  (getKey_apply Key_Count f s i = inl out_of_range ↔ Key_Count ≤ i) ∧
  (∀ s', getKey_apply Key_Count f s i = inr s' →
     getKey Key_Count s' i = inr (f (aKey s !!! i)) ∧
     (∀ j, j ≠ i → getKey Key_Count s' j = getKey Key_Count s j) ∧
     aKeybind s' = aKeybind s ∧ aKeybindSize s' = aKeybindSize s ∧
     aPrimaryKeyState s' = aPrimaryKeyState s ∧
     aEventOccurred s' = aEventOccurred s ∧
     aUsedAsModifier s' = aUsedAsModifier s) ∧
  (∀ refresh, i < Key_Count →
     getKey Key_Count (update E Key_Count Event_Count refresh s) i
     = inr (refresh i (aKey s !!! i))).
Proof.
  intros Hlen. unfold getKey, getKey_apply.
  destruct (Nat.leb_spec Key_Count i) as [Hge|Hlt].
  - split_and!; try done.
    + intros ?. lia.
    + intros ? ?. lia.
  - split_and!.
    + split; [discriminate|lia].
    + done.
    + split; [discriminate|lia].
    + intros s' [= <-]. simpl. split_and!; try done.
      * rewrite list_lookup_total_alter_eq by lia. done.
      * intros j Hj. destruct (Key_Count <=? j); [done|].
        by rewrite list_lookup_total_alter_ne.
    + intros refresh _.
      rewrite (aKey_after_update refresh s i).
      by rewrite decide_True by lia.
Qed.

(** *** [forEachKey] *)

Lemma list_eq_total {A : Type} `{!Inhabited A} (l1 l2 : list A) :
  length l1 = length l2 →
  (∀ i, i < length l1 → l1 !!! i = l2 !!! i) →
  l1 = l2.
Proof.
  intros Hlen Hall. apply list_eq. intros i.
  destruct (decide (i < length l1)) as [Hi|Hi].
  - rewrite (list_lookup_lookup_total_lt l1 i Hi).
    rewrite (list_lookup_lookup_total_lt l2 i) by lia.
    f_equal. by apply Hall.
  - rewrite (lookup_ge_None_2 l1 i) by lia.
    by rewrite (lookup_ge_None_2 l2 i) by lia.
Qed.


Lemma forEachKey_loop_length {A : Type} (fn_ : A → Key → A * Key) (a : A)
    (keys : list Key) :
  length (snd (forEachKey_loop fn_ a keys)) = length keys.
Proof.
  revert a. induction keys as [|k keys IH]; intros a; simpl; [done|].
  destruct (fn_ a k) as [a1 k']. specialize (IH a1).
  destruct (forEachKey_loop fn_ a1 keys) as [a2 keys'']. simpl in *.
  by rewrite IH.
Qed.

Lemma forEachKey_loop_lookup {A : Type} (fn_ : A → Key → A * Key) (a : A)
    (keys : list Key) (i : nat) :
  i < length keys →
  snd (forEachKey_loop fn_ a keys) !!! i
  = snd (fn_ (fst (forEachKey_loop fn_ a (take i keys))) (keys !!! i)).
Proof.
  revert a i. induction keys as [|k keys IH]; intros a i Hi; simpl in Hi;
    [lia|].
  destruct i as [|i]; simpl.
  - destruct (fn_ a k) as [a1 k'].
    by destruct (forEachKey_loop fn_ a1 keys) as [a2 keys''].
  - destruct (fn_ a k) as [a1 k']. specialize (IH a1 i ltac:(lia)).
    destruct (forEachKey_loop fn_ a1 keys) as [a2 keys''].
    destruct (forEachKey_loop fn_ a1 (take i keys)) as [a3 keys3].
    simpl in *. done.
Qed.

Lemma forEachKey_loop_pure (f : Key → Key) (keys : list Key) :
  forEachKey_loop (λ (u : unit) k, (u, f k)) () keys = ((), f <$> keys).
Proof.
  induction keys as [|k keys IH]; simpl; [done|]. by rewrite IH.
Qed.

(** X15.  [forEachKey] changes nothing but the keys: the registry and all
    flags are as before and the number of keys is the same.  The function
    is applied in storage order: the new key at index [i] is what the
    function makes of the old key at [i] in the state the calls on the
    keys below [i] have left.  A function without state of its own is
    mapped over the keys. *)
Theorem forEachKey_frame {A : Type} (fn_ : A → Key → A * Key) (a : A)
    (f : Key → Key) (s : IKeybind) :
  let s' := snd (forEachKey fn_ a s) in
  (aKeybind s' = aKeybind s ∧ aKeybindSize s' = aKeybindSize s ∧
   aPrimaryKeyState s' = aPrimaryKeyState s ∧
   aEventOccurred s' = aEventOccurred s ∧
   aUsedAsModifier s' = aUsedAsModifier s) ∧
  length (aKey s') = length (aKey s) ∧
  (∀ i, i < length (aKey s) →
        aKey s' !!! i
        = snd (fn_ (fst (forEachKey_loop fn_ a (take i (aKey s))))
                   (aKey s !!! i))) ∧
  fst (forEachKey fn_ a s) = fst (forEachKey_loop fn_ a (aKey s)) ∧
  aKey (snd (forEachKey (λ (u : unit) k, (u, f k)) () s)) = f <$> aKey s.
Proof.
  intros s'. unfold s', forEachKey.
  pose proof (forEachKey_loop_length fn_ a (aKey s)) as Hlen.
  pose proof (forEachKey_loop_lookup fn_ a (aKey s)) as Hlook.
  rewrite (forEachKey_loop_pure f (aKey s)).
  destruct (forEachKey_loop fn_ a (aKey s)) as [a' keys']. simpl in *.
  split_and!; done.
Qed.

(** X16.  Applying a function to every key with [forEachKey] and then
    calling [update] gives the object that [update] alone gives when the
    collaborator's refresh is preceded by that function. *)
Theorem forEachKey_then_update (f : Key → Key) (refresh : nat → Key → Key)
    (s : IKeybind) :
  length (aKey s) = Key_Count →
  update E Key_Count Event_Count refresh
    (snd (forEachKey (λ (u : unit) k, (u, f k)) () s))
  = update E Key_Count Event_Count (λ i k, refresh i (f k)) s.
Proof.
  intros Hlen. unfold update. f_equal.
  unfold forEachKey. rewrite forEachKey_loop_pure. simpl.
  set (s1 := with_aKey (λ _, f <$> aKey s) s).
  destruct (beginCycle_spec E Key_Count refresh s1)
    as (HB1 & HS1 & HP1 & HE1 & HLK1 & HLU1 & HK1 & HU1).
  destruct (beginCycle_spec E Key_Count (λ i k, refresh i (f k)) s)
    as (HB2 & HS2 & HP2 & HE2 & HLK2 & HLU2 & HK2 & HU2).
  assert (HK : aKey (beginCycle E Key_Count refresh s1)
               = aKey (beginCycle E Key_Count (λ i k, refresh i (f k)) s)).
  { apply list_eq_total.
    - rewrite HLK1, HLK2. simpl. apply length_fmap.
    - intros i Hi. rewrite HLK1 in Hi. simpl in Hi.
      rewrite length_fmap in Hi.
      rewrite HK1, HK2. simpl. rewrite length_fmap.
      rewrite !decide_True by lia.
      by rewrite (list_lookup_total_fmap f (aKey s) i) by lia. }
  assert (HU : aUsedAsModifier (beginCycle E Key_Count refresh s1)
               = aUsedAsModifier
                   (beginCycle E Key_Count (λ i k, refresh i (f k)) s)).
  { apply list_eq_total.
    - by rewrite HLU1, HLU2.
    - intros i Hi. by rewrite HU1, HU2, HK. }
  destruct (beginCycle E Key_Count refresh s1),
           (beginCycle E Key_Count (λ i k, refresh i (f k)) s).
  simpl in *. congruence.
Qed.

(** *** Obtainable objects *)


End Surface.

(** ** The further properties on the scenarios *)


Lemma unassigned_never_fires_witness :
  aKeybindSize (construct 3 2 2 Scenario.keys0) !!! 0 = 0 ∧
  isEvent 2 (update bitflags 3 2 Scenario.press
               (construct 3 2 2 Scenario.keys0)) 0 = false.
Proof.
  split; [reflexivity|].
  apply (unassigned_never_fires bitflags 3 2 2).
  - by apply wf_construct.
  - lia.
  - reflexivity.
Defined.

Lemma one_event_per_primary_witness :
  isEvent 2 (update bitflags 3 2 Scenario.press Scenario.registered) 0
  = true ∧ 0 = 0.
Proof.
  split; [reflexivity|].
  apply (one_event_per_primary bitflags 3 2 2 Scenario.press
           Scenario.registered 0 0).
  - exact wf_Scenario_registered.
  - lia.
  - reflexivity.
  - reflexivity.
  - reflexivity.
Defined.

Lemma fired_event_sound_witness :
  isEvent 2 (update bitflags 3 2 Scenario.press Scenario.registered) 0
  = true ∧
  isPressed bitflags (Scenario.press 0 (aKey Scenario.registered !!! 0))
  = true.
Proof.
  split; [reflexivity|].
  destruct (fired_event_sound bitflags 3 2 2 Scenario.press
              Scenario.registered 0 wf_Scenario_registered ltac:(lia)
              eq_refl) as (_ & _ & _ & _ & _ & _ & Hmods).
  destruct (Hmods 1) as [Hpressed _]; [vm_compute; lia|].
  exact Hpressed.
Defined.

Lemma winner_fires_iff_witness :
  isEvent 2 (update bitflags 3 2 Scenario.press Scenario.registered) 0
  = true.
Proof.
  apply (winner_fires_iff bitflags 3 2 2 Scenario.press
           Scenario.registered 0 1).
  - exact wf_Scenario_registered.
  - lia.
  - lia.
  - vm_compute. split; [lia|reflexivity].
  - intros [|[|m]] Hm Hne _ _; try lia. left. vm_compute. lia.
  - split; [reflexivity|]. split; reflexivity.
Defined.

Lemma unmet_longest_blocks_key_witness :
  isValidSequence bitflags
    (beginCycle bitflags 3 Scenario.press Shadowed.registered) 1 = true ∧
  anyBit (aPrimaryKeyState Shadowed.registered !!! 1)
    (state (Scenario.press 1 (aKey Shadowed.registered !!! 1))) = true ∧
  isEvent 2 (update bitflags 3 2 Scenario.press Shadowed.registered) 1
  = false.
Proof.
  split; [reflexivity|]. split; [reflexivity|].
  apply (unmet_longest_blocks_key bitflags 3 2 2 Scenario.press
           Shadowed.registered 0 1).
  - unfold Shadowed.registered. do 2 apply wf_assign. by apply wf_construct.
  - lia.
  - lia.
  - vm_compute. split; [lia|reflexivity].
  - reflexivity.
  - reflexivity.
  - reflexivity.
  - intros [|[|m]] Hm Hne _ _; try lia. vm_compute. lia.
  - vm_compute. split; [lia|reflexivity].
Defined.

Lemma used_flag_rule_witness :
  aUsedAsModifier MarkedPrimary.afterCycle1 !!! 1 = true ∧
  aUsedAsModifier (update bitflags 3 3 MarkedPrimary.cycle2
                     MarkedPrimary.afterCycle1) !!! 1 = true.
Proof.
  split; [reflexivity|].
  apply (used_flag_rule bitflags 3 3 2 MarkedPrimary.cycle2
           MarkedPrimary.afterCycle1 1).
  - apply wf_update. exact wf_MarkedPrimary_registered.
  - lia.
  - lia.
  - left. split; reflexivity.
Defined.

Lemma entries_beyond_size_unread_witness :
  let s := state_of (assign 3 2 3 0 [10; 20] (push bitflags)
                       (construct 3 2 3 Scenario.keys0)) in
  let s' := state_of (assign 3 2 3 0 [30; 99; 20] (hold bitflags) s) in
  aKeybind s' ≠ aKeybind s ∧
  ∀ e, isEvent 2 (update bitflags 3 2 Scenario.press s') e
       = isEvent 2 (update bitflags 3 2 Scenario.press s) e.
Proof.
  intros s s'. split; [discriminate|].
  assert (Hsame : sameBelowSize s' s).
  { unfold sameBelowSize. split_and!; try reflexivity.
    intros [|[|e]] [|[|j]] Hj; vm_compute in Hj; try lia; reflexivity. }
  destruct (entries_beyond_size_unread bitflags 3 2 Scenario.press s' s Hsame)
    as (_ & Hev & _).
  exact Hev.
Defined.

Lemma assign_empty_unassigns_witness :
  ∃ s', assign 3 2 2 0 [] (push bitflags) Scenario.registered = Done s' ∧
        isEvent 2 (update bitflags 3 2 Scenario.press s') 0 = false.
Proof.
  destruct (assign_empty_unassigns bitflags 3 2 2 Scenario.registered 0
              (push bitflags) wf_Scenario_registered ltac:(lia) ltac:(lia))
    as (s' & Hdone & _ & _ & Hquiet).
  exists s'. split; [exact Hdone|apply Hquiet].
Defined.

Lemma reassign_after_failure_witness :
  let s := state_of (assign 3 2 3 0 [10; 20] (push bitflags)
                       (construct 3 2 3 Scenario.keys0)) in
  let s1 := state_of (assign 3 2 3 0 [30; 99; 20] (hold bitflags) s) in
  ∃ s2', assign 3 2 3 0 [20] (hold bitflags) s1 = Done s2' ∧
         sameBelowSize s2'
           (state_of (assign 3 2 3 0 [20] (hold bitflags) s)).
Proof.
  intros s s1.
  destruct (reassign_after_failure bitflags 3 2 3 s s1
              (state_of (assign 3 2 3 0 [20] (hold bitflags) s))
              0 [30; 99; 20] [20] (hold bitflags) (hold bitflags)
              eq_refl eq_refl) as (s2' & Hdone & Hsame & _).
  exists s2'. split; [exact Hdone|exact Hsame].
Defined.

Lemma clear_is_fresh_start_witness :
  clear 2 Scenario.after = construct 3 2 2 (aKey Scenario.after) ∧
  isAnyEvent (update bitflags 3 2 Scenario.press (clear 2 Scenario.after))
  = false.
Proof.
  destruct (clear_is_fresh_start bitflags 3 2 2 Scenario.after)
    as [Hfresh Hquiet].
  - apply wf_update. exact wf_Scenario_registered.
  - lia.
  - split; [exact Hfresh|].
    destruct (Hquiet Scenario.press) as (_ & Hany & _). exact Hany.
Defined.

Lemma getKey_spec_witness :
  getKey 3 Scenario.registered 3 = inl out_of_range ∧
  getKey 3 (update bitflags 3 2 Scenario.press Scenario.registered) 1
  = inr (mkKey 20 (push bitflags) 6).
Proof.
  destruct (getKey_spec bitflags 3 2 Scenario.registered 3 (λ k, k) eq_refl)
    as (Hout & _).
  destruct (getKey_spec bitflags 3 2 Scenario.registered 1 (λ k, k) eq_refl)
    as (_ & _ & _ & _ & Hupd).
  split; [apply Hout; lia|].
  rewrite (Hupd Scenario.press ltac:(lia)). reflexivity.
Defined.

Lemma forEachKey_then_update_witness :
  aEventOccurred
    (update bitflags 3 2 (λ _ k, k)
       (snd (forEachKey (λ (u : unit) k, (u, Scenario.press (id k / 10 - 1) k))
               () Scenario.registered)))
  = [true; false].
Proof.
  rewrite (forEachKey_then_update bitflags 3 2
             (λ k, Scenario.press (id k / 10 - 1) k) (λ _ k, k)
             Scenario.registered eq_refl).
  reflexivity.
Defined.

(** ** The condition on the rivals cannot be relaxed *)

Section Rivals.

Variable E : eStateValues.
Variables Key_Count Event_Count Keybind_Max : nat.

(** Once a complete definition [m] on an unmarked key [p] has been
    examined, the table holds for [p] a candidate that is at least as
    long as [m]; if it is exactly as long and was registered before [m],
    then [p] does not have the state [m] asks for. *)
Lemma candidate_is_maximal (b : IKeybind) (n p m : nat) :
  wf Key_Count Event_Count Keybind_Max b → Event_Count ≤ 255 →
  n ≤ Event_Count → isUsedAsModifier b p = false →
  m < n → isPrimaryOf b m p → isValidSequence E b m = true →
  ∃ c, candidatesUpTo E Key_Count b n !!! p = c + 1 ∧
       aKeybindSize b !!! m ≤ aKeybindSize b !!! c ∧
       (aKeybindSize b !!! m = aKeybindSize b !!! c → c < m →
        anyBit (aPrimaryKeyState b !!! m) (state (aKey b !!! p)) = false).
Proof.
  intros Hwf H255 Hn Hused Hm [Hsz Hp] Hvalid.
  assert (HpK : p < Key_Count).
  { rewrite <- Hp. apply (wf_index _ _ _ _ Hwf); [lia|lia]. }
  induction n as [|n IH]; [lia|].
  rewrite candidatesUpTo_S.
  pose proof (length_candidatesUpTo E Key_Count b n) as Hlen.
  set (best := candidatesUpTo E Key_Count b n) in *.
  destruct (decide (m = n)) as [->|Hmn].
  - (* [m] itself is examined *)
    unfold candidateStep, isEmptyKeybind.
    rewrite (proj2 (Nat.eqb_neq _ _) Hsz), Hp, Hused, Hvalid. simpl.
    destruct (skipForLength b best n) eqn:Hskip.
    + unfold skipForLength in Hskip. rewrite Hp in Hskip.
      destruct (Nat.eqb_spec (best !!! p) 0) as [|Hne]; [done|].
      exists (best !!! p - 1). split; [lia|].
      destruct (Nat.ltb_spec (aKeybindSize b !!! n)
                  (aKeybindSize b !!! (best !!! p - 1))) as [Hlt|Hge].
      * split; [lia|]. intros Heq. lia.
      * destruct (Nat.eqb_spec (aKeybindSize b !!! n)
                    (aKeybindSize b !!! (best !!! p - 1))) as [Heq|];
          [|done].
        split; [lia|]. intros _ _. by apply negb_true_iff.
    + exists n. rewrite u8_id by lia. split_and!.
      * apply list_lookup_total_insert_eq. lia.
      * done.
      * intros _ Hlt. lia.
  - destruct (IH ltac:(lia) ltac:(lia)) as (c & Hc & Hle & Hunmet).
    destruct (candidateStep_cases E b best n ltac:(lia))
      as [->|(-> & Hszn & Hskip & _)]; [by exists c|].
    destruct (decide (keyAt b n 0 = p)) as [Hnp|Hnp].
    + rewrite Hnp. exists n. split_and!.
      * apply list_lookup_total_insert_eq. lia.
      * unfold skipForLength in Hskip. rewrite Hnp, Hc in Hskip.
        replace (c + 1 - 1) with c in Hskip by lia.
        destruct (Nat.eqb_spec (c + 1) 0); [lia|].
        destruct (Nat.ltb_spec (aKeybindSize b !!! n)
                    (aKeybindSize b !!! c)); [done|lia].
      * intros _ Hlt. lia.
    + exists c. by rewrite list_lookup_total_insert_ne.
Qed.

(** A definition [k] that is reported as fired after [update] has only
    rivals of the kind the amended C2 admits: every other complete
    definition on its primary key is shorter, or as long and either
    registered earlier or asking for a state the key does not have. *)
Lemma rival_condition_necessary (refresh : nat → Key → Key) (s : IKeybind)
    (k p m : nat) :
  wf Key_Count Event_Count Keybind_Max s → Event_Count ≤ 255 →
  let b := beginCycle E Key_Count refresh s in
  isEvent Event_Count (update E Key_Count Event_Count refresh s) k = true →
  isPrimaryOf s k p →
  m < Event_Count → m ≠ k → isPrimaryOf s m p →
  isValidSequence E b m = true →
  aKeybindSize s !!! m < aKeybindSize s !!! k ∨
  (aKeybindSize s !!! m = aKeybindSize s !!! k ∧
   (m < k ∨
    anyBit (aPrimaryKeyState s !!! m) (state (aKey b !!! p)) = false)).
Proof.
  intros Hwf H255 b Hev Hpk Hm Hmk Hpm Hvalid.
  destruct (beginCycle_spec E Key_Count refresh s) as (HB & HS & HP & _).
  fold b in HB, HS, HP.
  assert (Hprim : ∀ e X, isPrimaryOf b e X ↔ isPrimaryOf s e X)
    by (intros; by apply sameInputs_isPrimaryOf).
  destruct (isEvent_update_sound E Key_Count Event_Count Keybind_Max
              refresh s k Hwf H255 Hev)
    as (_ & p' & _ & Hprim' & Hbest & Hused & _).
  fold b in Hprim', Hbest, Hused. apply Hprim in Hprim'.
  destruct Hprim' as [_ Hp'], Hpk as [_ Hp].
  assert (p' = p) as -> by congruence.
  destruct (candidate_is_maximal b Event_Count p m
              ltac:(by apply wf_beginCycle) H255 ltac:(lia) Hused Hm
              ltac:(by apply Hprim) Hvalid) as (c & Hc & Hle & Hunmet).
  unfold searchCandidates in Hbest. rewrite Hbest in Hc.
  assert (c = k) as -> by lia.
  rewrite HS, HP in *.
  destruct (decide (aKeybindSize s !!! m < aKeybindSize s !!! k));
    [by left|right].
  split; [lia|]. destruct (decide (m < k)); [by left|right].
  apply Hunmet; lia.
Qed.

End Rivals.

(** ** Longest match *)

(** C2, as the code has it.  Take two assigned definitions [i] and [k] on
    the same primary key [p], [k] the longer, with all keys of both
    pressed, both sequences valid and [p] meeting both required states
    after the refresh.  If moreover [p] does not carry the
    used-as-modifier flag, and every other definition on [p] whose chord
    is complete on the refreshed keys is shorter than [k], or as long as
    [k] and either registered before [k] or asking for a state that [p]
    does not have, then after [update] slot [k] has fired and slot [i] has
    not.  In the scenario of the specification (keys 10, 20, 30; slot
    0 = [10, 20], slot 1 = [20], both asking for push; key 10 pressed at
    tick 5, key 20 at tick 6) slot 0 fires, slot 1 does not, and the key
    with id 10 is marked as used modifier. *)
Theorem longest_match_wins :
  (∀ (E : eStateValues) (Key_Count Event_Count Keybind_Max : nat)
     (refresh : nat → Key → Key) (s : IKeybind) (i k p : nat),
     wf Key_Count Event_Count Keybind_Max s → Event_Count ≤ 255 →
     let b := beginCycle E Key_Count refresh s in
     i < Event_Count → k < Event_Count →
     isPrimaryOf s i p → isPrimaryOf s k p →
     aKeybindSize s !!! i < aKeybindSize s !!! k →
     chordPressed E b i → chordPressed E b k →
     isValidSequence E b i = true → isValidSequence E b k = true →
     anyBit (aPrimaryKeyState s !!! i) (state (aKey b !!! p)) = true →
     anyBit (aPrimaryKeyState s !!! k) (state (aKey b !!! p)) = true →
     isUsedAsModifier b p = false →
     (∀ m, m < Event_Count → m ≠ k → isPrimaryOf s m p →
           isValidSequence E b m = true →
           aKeybindSize s !!! m < aKeybindSize s !!! k ∨
           (aKeybindSize s !!! m = aKeybindSize s !!! k ∧
            (m < k ∨
             anyBit (aPrimaryKeyState s !!! m) (state (aKey b !!! p))
             = false))) →
     isEvent Event_Count (update E Key_Count Event_Count refresh s) k = true ∧
     isEvent Event_Count (update E Key_Count Event_Count refresh s) i = false) ∧
  (isEvent 2 Scenario.after 0 = true ∧
   isEvent 2 Scenario.after 1 = false ∧
   id (aKey Scenario.after !!! 0) = 10 ∧
   isUsedAsModifier Scenario.after 0 = true).
Proof.
  split.
  - intros E Key_Count Event_Count Keybind_Max refresh s i k p.
    apply longest_match_general.
  - by vm_compute.
Qed.

Lemma longest_match_wins_witness :
  wf 3 2 2 Scenario.registered ∧
  isEvent 2 (update bitflags 3 2 Scenario.press Scenario.registered) 0 = true ∧
  isEvent 2 (update bitflags 3 2 Scenario.press Scenario.registered) 1 = false.
Proof.
  split; [exact wf_Scenario_registered|].
  apply (proj1 longest_match_wins bitflags 3 2 2 Scenario.press
           Scenario.registered 1 0 1).
  - exact wf_Scenario_registered.
  - lia.
  - lia.
  - lia.
  - by vm_compute.
  - by vm_compute.
  - vm_compute. lia.
  - intros [|[|j]] Hj; vm_compute in Hj; try lia; by vm_compute.
  - intros [|[|j]] Hj; vm_compute in Hj; try lia; by vm_compute.
  - by vm_compute.
  - by vm_compute.
  - by vm_compute.
  - by vm_compute.
  - by vm_compute.
  - intros [|[|m]] Hm Hne Hprim Hvalid; try lia. left. vm_compute. lia.
Defined.

(** With the third chord of [ThreeChords] incomplete (key 30 idle), the
    pair of the specification behaves as its sentence says, and the
    statement above applies: the incomplete rival does not count. *)
Example incomplete_rival_does_not_count :
  isEvent 3 (update bitflags 3 3 Scenario.press ThreeChords.registered) 0
  = true ∧
  isEvent 3 (update bitflags 3 3 Scenario.press ThreeChords.registered) 1
  = false.
Proof.
  apply (longest_match_general bitflags 3 3 3 Scenario.press
           ThreeChords.registered 1 0 1).
  - exact wf_ThreeChords_registered.
  - lia.
  - lia.
  - lia.
  - vm_compute. split; [lia|reflexivity].
  - vm_compute. split; [lia|reflexivity].
  - vm_compute. lia.
  - intros [|j] Hj; vm_compute in Hj; [reflexivity|lia].
  - intros [|[|j]] Hj; vm_compute in Hj; [reflexivity|reflexivity|lia].
  - reflexivity.
  - reflexivity.
  - reflexivity.
  - reflexivity.
  - reflexivity.
  - intros [|[|[|m]]] Hm Hne Hprim Hvalid; try lia.
    + left. vm_compute. lia.
    + vm_compute in Hvalid. discriminate.
Qed.

(** The sentence of the specification about pairs of definitions fails
    when a third, longer chord on the same primary key is complete (the
    longest of the three fires instead), when the shared primary key is
    still marked from an earlier cycle (nothing fires), and when a chord
    as long as the longer one, registered after it and asking for the
    state the key has, is complete (the later one fires instead). *)
Lemma longest_match_counterexample :
  ¬ longest_match_as_stated bitflags 3 3
      ThreeChords.registered ThreeChords.press ∧
  ¬ longest_match_as_stated bitflags 3 3
      MarkedPrimary.afterCycle1 MarkedPrimary.cycle2 ∧
  ¬ longest_match_as_stated bitflags 3 3
      EqualRival.registered ThreeChords.press.
Proof.
  split; [|split]; intros H.
  - assert (Hfire : isEvent 3 (update bitflags 3 3 ThreeChords.press
                                 ThreeChords.registered) 0 = true).
    { refine (proj1 (H 1 0 1 _ _ _ _ _ _ _ _ _ _ _)); clear H.
      - lia.
      - lia.
      - vm_compute. split; [lia|reflexivity].
      - vm_compute. split; [lia|reflexivity].
      - vm_compute. lia.
      - intros [|j] Hj; vm_compute in Hj; [reflexivity|lia].
      - intros [|[|j]] Hj; vm_compute in Hj; [reflexivity|reflexivity|lia].
      - reflexivity.
      - reflexivity.
      - reflexivity.
      - reflexivity. }
    clear H. vm_compute in Hfire. discriminate.
  - assert (Hfire : isEvent 3 (update bitflags 3 3 MarkedPrimary.cycle2
                                 MarkedPrimary.afterCycle1) 0 = true).
    { refine (proj1 (H 1 0 1 _ _ _ _ _ _ _ _ _ _ _)); clear H.
      - lia.
      - lia.
      - vm_compute. split; [lia|reflexivity].
      - vm_compute. split; [lia|reflexivity].
      - vm_compute. lia.
      - intros [|j] Hj; vm_compute in Hj; [reflexivity|lia].
      - intros [|[|j]] Hj; vm_compute in Hj; [reflexivity|reflexivity|lia].
      - reflexivity.
      - reflexivity.
      - reflexivity.
      - reflexivity. }
    clear H. vm_compute in Hfire. discriminate.
  - assert (Hfire : isEvent 3 (update bitflags 3 3 ThreeChords.press
                                 EqualRival.registered) 0 = true).
    { refine (proj1 (H 1 0 1 _ _ _ _ _ _ _ _ _ _ _)); clear H.
      - lia.
      - lia.
      - vm_compute. split; [lia|reflexivity].
      - vm_compute. split; [lia|reflexivity].
      - vm_compute. lia.
      - intros [|j] Hj; vm_compute in Hj; [reflexivity|lia].
      - intros [|[|j]] Hj; vm_compute in Hj; [reflexivity|reflexivity|lia].
      - reflexivity.
      - reflexivity.
      - reflexivity.
      - reflexivity. }
    clear H. vm_compute in Hfire. discriminate.
Qed.

(** ** The used-as-modifier flag through [update] *)

(** Read of [update] as a whole, the sentence about the flag fails in the
    scenario of the specification: key 10 is not marked before, it is
    refreshed to hold, and it is marked after, because it is the modifier
    of the chord that fires. *)
Lemma flag_decay_counterexample :
  ¬ flag_decay_as_stated bitflags 3 2 Scenario.registered Scenario.press.
Proof.
  intros H. destruct (H 0 ltac:(lia)) as [_ Hkeep]. clear H.
  specialize (Hkeep eq_refl). vm_compute in Hkeep. discriminate.
Qed.

(** Both keys of the chord of [MarkedPrimary] are marked after its first
    cycle; once all keys are released, the next [update] clears the
    marks. *)
Lemma used_flag_decay_witness :
  wf 3 3 2 MarkedPrimary.afterCycle1 ∧
  aUsedAsModifier MarkedPrimary.afterCycle1 !!! 1 = true ∧
  aUsedAsModifier (update bitflags 3 3 releaseAll MarkedPrimary.afterCycle1)
    !!! 1 = false.
Proof.
  assert (Hwf : wf 3 3 2 MarkedPrimary.afterCycle1)
    by (apply wf_update; exact wf_MarkedPrimary_registered).
  split; [exact Hwf|]. split; [reflexivity|].
  destruct (used_flag_decay bitflags 3 3 2 releaseAll
              MarkedPrimary.afterCycle1 1 Hwf ltac:(lia) ltac:(lia))
    as (_ & _ & Hclear & _).
  apply Hclear.
  - right. vm_compute. discriminate.
  - reflexivity.
Defined.
